(** * k8s-find-obj: collection-and-scan engine

    A shallow embedding of [internal/internal.go] (package [internal]) and
    of the parts of [cmd/main.go] that fix the defaults, followed by the
    properties of the engine stated in the design document.

    Go strings are byte strings: they are modelled by [string], whose
    characters ([ascii]) are the bytes.  Go's [int] is the 64-bit signed
    integer; it is modelled by [Z] with the wrap-around written out.
    Methods on [*Application] mutate the receiver, write log records and
    call the cluster; they are modelled in a small state monad whose state
    holds the receiver and the trace of observable events, and whose
    outcome is either a normal return or a run-time panic. *)

From Stdlib Require Import ZArith List String Ascii Bool Lia.
Import ListNotations.

Local Open Scope string_scope.
Local Open Scope Z_scope.

(* ===================================================================== *)
(** ** Go's [int] *)
(* ===================================================================== *)

Module GoInt.

Definition maxInt : Z := 2 ^ 63 - 1.
Definition minInt : Z := - 2 ^ 63.

(** Two's complement wrap-around of a mathematical integer. *)
Definition wrap (z : Z) : Z := (z + 2 ^ 63) mod 2 ^ 64 - 2 ^ 63.

Definition add (a b : Z) : Z := wrap (a + b).
Definition sub (a b : Z) : Z := wrap (a - b).

Definition inRange (z : Z) : Prop := minInt <= z <= maxInt.

Lemma wrap_inRange (z : Z) : inRange z -> wrap z = z.
Proof.
  unfold inRange, minInt, maxInt, wrap. intros H.
  rewrite Z.mod_small by lia. lia.
Qed.

Lemma wrap_range (z : Z) : inRange (wrap z).
Proof.
  unfold inRange, minInt, maxInt, wrap.
  pose proof (Z.mod_pos_bound (z + 2 ^ 63) (2 ^ 64) ltac:(lia)). lia.
Qed.

End GoInt.

(* ===================================================================== *)
(** ** Byte strings: [len], slicing, and package [strings] *)
(* ===================================================================== *)

Module Strings.

(** [len(s)] *)
Definition len (s : string) : Z := Z.of_nat (String.length s).

(** [s[lo:hi]]; [None] is the run-time panic "slice bounds out of range". *)
Definition slice (s : string) (lo hi : Z) : option string :=
  if (0 <=? lo) && (lo <=? hi) && (hi <=? len s)
  then Some (substring (Z.to_nat lo) (Z.to_nat (hi - lo)) s)
  else None.

Definition byte (c : ascii) : Z := Z.of_nat (nat_of_ascii c).

(** ['A' <= c && c <= 'Z'] *)
Definition isUpperByte (c : ascii) : bool :=
  (65 <=? byte c) && (byte c <=? 90).

(** [c += 'a' - 'A'] on an upper-case byte, the identity elsewhere. *)
Definition lowerByte (c : ascii) : ascii :=
  if isUpperByte c then ascii_of_nat (nat_of_ascii c + 32) else c.

Fixpoint mapBytes (f : ascii -> ascii) (s : string) : string :=
  match s with
  | EmptyString => EmptyString
  | String c s' => String (f c) (mapBytes f s')
  end.

Fixpoint allBytes (p : ascii -> bool) (s : string) : bool :=
  match s with
  | EmptyString => true
  | String c s' => p c && allBytes p s'
  end.

Fixpoint anyByte (p : ascii -> bool) (s : string) : bool :=
  match s with
  | EmptyString => false
  | String c s' => p c || anyByte p s'
  end.

(** [c < utf8.RuneSelf] for every byte of [s]. *)
Definition isASCII (s : string) : bool := allBytes (fun c => byte c <? 128) s.

Definition hasUpper (s : string) : bool := anyByte isUpperByte s.

(** [strings.Split] and [strings.ReplaceAll] for a non-empty separator
    (resp. a non-empty [old]), the only way the program calls them.  The
    counter [skip] is the number of bytes of an occurrence found earlier
    that are still to be stepped over. *)
Fixpoint genSplit (sep : string) (skip : nat) (s : string)
  : string * list string :=
  match s with
  | EmptyString => (EmptyString, [])
  | String c s' =>
      match skip with
      | S k => genSplit sep k s'
      | O =>
          if prefix sep s
          then (EmptyString,
                let (t, r) := genSplit sep (String.length sep - 1) s' in t :: r)
          else let (t, r) := genSplit sep 0 s' in (String c t, r)
      end
  end.

Definition Split (s sep : string) : list string :=
  let (t, r) := genSplit sep 0 s in t :: r.

Fixpoint replaceFrom (old new : string) (skip : nat) (s : string) : string :=
  match s with
  | EmptyString => EmptyString
  | String c s' =>
      match skip with
      | S k => replaceFrom old new k s'
      | O =>
          if prefix old s
          then new ++ replaceFrom old new (String.length old - 1) s'
          else String c (replaceFrom old new 0 s')
      end
  end.

Definition ReplaceAll (s old new : string) : string := replaceFrom old new 0 s.

(** [slices.Contains] on a slice of strings. *)
Definition Contains (xs : list string) (x : string) : bool :=
  existsb (String.eqb x) xs.

End Strings.

Import Strings.

(** The part of the Unicode tables that [strings.ToLower] consults: on a
    string with a byte outside ASCII it returns
    [strings.Map(unicode.ToLower, s)].  Whatever the tables hold, no
    ASCII upper-case byte survives: an ASCII letter is mapped to its
    lower-case form, and every other rune is encoded in bytes [>= 0x80]
    or is one of the lower-case ASCII images. *)
Class Unicode := {
  MapToLower : string -> string;
  MapToLower_no_upper : forall s, hasUpper (MapToLower s) = false
}.

Section ToLower.
Context `{Unicode}.

(** [strings.ToLower]: the ASCII fast path rewrites bytes in place. *)
Definition ToLower (s : string) : string :=
  if isASCII s
  then (if hasUpper s then mapBytes lowerByte s else s)
  else MapToLower s.

End ToLower.

(* ===================================================================== *)
(** ** Errors ([error], [github.com/pkg/errors]) *)
(* ===================================================================== *)

(** An [error] is either one produced outside the program (or by
    [errors.New]) or the result of [errors.Wrap]. *)
Inductive error : Type :=
| errorString (msg : string)
| Wrap (cause : error) (msg : string).

(** [err.Error()] *)
Fixpoint Error (e : error) : string :=
  match e with
  | errorString msg => msg
  | Wrap cause msg => msg ++ ": " ++ Error cause
  end.

(* ===================================================================== *)
(** ** UTF-8 rune widths ([unicode/utf8]) *)
(* ===================================================================== *)

Module Utf8.

(** Tables [first] and [acceptRanges]: for a lead byte of a multi-byte
    sequence, the length of the sequence and the range accepted for its
    second byte; [None] for an ASCII byte and for an invalid lead byte. *)
Definition lead (b : Z) : option (Z * (Z * Z)) :=
  if b <? 194 then None                          (* 0x00-0xC1 *)
  else if b <=? 223 then Some (2, (128, 191))    (* 0xC2-0xDF *)
  else if b =? 224 then Some (3, (160, 191))     (* 0xE0 *)
  else if b =? 237 then Some (3, (128, 159))     (* 0xED *)
  else if b <=? 239 then Some (3, (128, 191))    (* 0xE1-0xEF *)
  else if b =? 240 then Some (4, (144, 191))     (* 0xF0 *)
  else if b <=? 243 then Some (4, (128, 191))    (* 0xF1-0xF3 *)
  else if b =? 244 then Some (4, (128, 143))     (* 0xF4 *)
  else None.                                     (* 0xF5-0xFF *)

(** [locb <= b && b <= hicb] *)
Definition cont (c : ascii) : bool := (128 <=? byte c) && (byte c <=? 191).

(** The width returned by [utf8.DecodeRuneInString(s)]. *)
Definition runeWidth (s : string) : Z :=
  match s with
  | EmptyString => 0
  | String s0 t0 =>
      match lead (byte s0) with
      | None => 1
      | Some (sz, (lo, hi)) =>
          if len s <? sz then 1 else
          match t0 with
          | EmptyString => 1
          | String s1 t1 =>
              if (byte s1 <? lo) || (hi <? byte s1) then 1
              else if sz <=? 2 then 2 else
              match t1 with
              | EmptyString => 1
              | String s2 t2 =>
                  if negb (cont s2) then 1
                  else if sz <=? 3 then 3 else
                  match t2 with
                  | EmptyString => 1
                  | String s3 _ => if negb (cont s3) then 1 else 4
                  end
              end
          end
      end
  end.

(** [s[n:]] for [0 <= n <= len(s)] *)
Fixpoint from (n : nat) (s : string) : string :=
  match n, s with
  | O, _ => s
  | S n', String _ s' => from n' s'
  | S _, EmptyString => EmptyString
  end.

(** The width returned by [inputString.step(pos)] of package [regexp]:
    that of the rune at [pos], 0 at the end of the text. *)
Definition step (s : string) (pos : Z) : Z :=
  if pos <? len s then runeWidth (from (Z.to_nat pos) s) else 0.

Lemma runeWidth_pos (s : string) : s <> EmptyString -> 1 <= runeWidth s.
Proof.
  destruct s as [|s0 t0]; [congruence|intros _].
  unfold runeWidth.
  destruct (lead (byte s0)) as [[sz [lo hi]]|]; [|lia].
  destruct (len (String s0 t0) <? sz); [lia|].
  destruct t0 as [|s1 t1]; [lia|].
  destruct ((byte s1 <? lo) || (hi <? byte s1)); [lia|].
  destruct (sz <=? 2); [lia|].
  destruct t1 as [|s2 t2]; [lia|].
  destruct (negb (cont s2)); [lia|].
  destruct (sz <=? 3); [lia|].
  destruct t2 as [|s3 t3]; [lia|].
  destruct (negb (cont s3)); lia.
Qed.

Lemma from_nonempty (n : nat) (s : string) :
  (n < String.length s)%nat -> from n s <> EmptyString.
Proof.
  revert s; induction n as [|n IH]; intros [|c s]; simpl; intros Hn;
    try lia; try congruence.
  apply IH; lia.
Qed.

Lemma step_pos (s : string) (pos : Z) :
  0 <= pos < len s -> 1 <= step s pos.
Proof.
  intros Hp. unfold step.
  destruct (Z.ltb_spec pos (len s)); [|lia].
  apply runeWidth_pos, from_nonempty. unfold len in *. lia.
Qed.

End Utf8.

(* ===================================================================== *)
(** ** Package [regexp] *)
(* ===================================================================== *)

(** The matching engine behind a compiled [*regexp.Regexp].
    [doExecute re s pos] is the engine's single search
    [re.doExecute(nil, nil, s, pos, ...)]: the leftmost-first match of the
    whole expression in [s] that begins at or after [pos], as the pair
    [(matches[0], matches[1])], or [None] when there is none. *)
Class RegexpEngine := {
  Regexp : Type;
  Compile : string -> Regexp + error;
  doExecute : Regexp -> string -> Z -> option (Z * Z);
  doExecute_bounds :
    forall re s pos b e,
      0 <= pos <= len s ->
      doExecute re s pos = Some (b, e) ->
      pos <= b /\ b <= e /\ e <= len s
}.

Section Regexp.
Context `{RegexpEngine}.

(** [Regexp.MatchString] *)
Definition MatchString (re : Regexp) (s : string) : bool :=
  match doExecute re s 0 with
  | Some _ => true
  | None => false
  end.

(** The loop of [Regexp.allMatches], from the state
    [(pos, i, prevMatchEnd)]; the matches are delivered in the order of
    the list.  [None] only when [fuel] iterations did not finish it. *)
Fixpoint allMatches (fuel : nat) (re : Regexp) (s : string) (n : Z)
         (pos i prevMatchEnd : Z) : option (list (Z * Z)) :=
  match fuel with
  | O => None
  | S fuel' =>
      if (i <? n) && (pos <=? len s) then
        match doExecute re s pos with
        | None => Some []
        | Some (m0, m1) =>
            let accept := negb ((m1 =? pos) && (m0 =? prevMatchEnd)) in
            let pos' :=
              if m1 =? pos
              then (let width := Utf8.step s pos in
                    if 0 <? width then pos + width else len s + 1)
              else m1 in
            match allMatches fuel' re s n pos' (if accept then i + 1 else i) m1 with
            | None => None
            | Some rest => Some (if accept then (m0, m1) :: rest else rest)
            end
        end
      else Some []
  end.

(** [Regexp.FindAllStringIndex(s, n)]; the empty list is Go's [nil]
    result.  Every iteration of the loop moves [pos] forward, so
    [len(s) + 2] iterations finish it ([allMatches_total] below). *)
Definition FindAllStringIndex (re : Regexp) (s : string) (n : Z)
  : list (Z * Z) :=
  let n := if n <? 0 then len s + 1 else n in
  match allMatches (S (S (String.length s))) re s n 0 0 (-1) with
  | Some locs => locs
  | None => []
  end.

End Regexp.

(* ===================================================================== *)
(** ** The cluster ([k8s.io/client-go]) and the log ([log/slog]) *)
(* ===================================================================== *)

(** The five typed clients the program lists from. *)
Inductive Resource : Type :=
| Pods | ConfigMaps | Deployments | StatefulSets | CronJobs.

(** What the program reads of an element of [objects.Items]:
    [object.Name], [object.Namespace] and [object.String()]. *)
Record Item : Type := {
  ItemName : string;
  ItemNamespace : string;
  ItemString : string
}.

(** The client library.  [ListResource cs r ns] is the call
    [cs.<Group>().<r>(ns).List(ctx, metav1.ListOptions{})]. *)
Class Kubernetes := {
  RestConfig : Type;
  Clientset : Type;
  BuildConfigFromFlags : string -> string -> RestConfig + error;
  NewForConfig : RestConfig -> Clientset + error;
  ListResource : Clientset -> Resource -> string -> list Item + error
}.

Inductive Level : Type := LevelDebug | LevelInfo.

(** What a run does that can be observed from outside: a log record
    (level, attributes attached with [slog.With], message) or a list call
    sent to the cluster. *)
Inductive Event : Type :=
| Log (level : Level) (attrs : list (string * string)) (msg : string)
| Call (r : Resource) (namespace : string).

(* ===================================================================== *)
(** ** Package [internal]: data *)
(* ===================================================================== *)

Module KubernetesObject.
Record t : Type := {
  Kind : string;
  Name : string;
  Namespace : string;
  Object : string
}.
End KubernetesObject.

Section Program.
Context `{Unicode} `{RegexpEngine} `{Kubernetes}.

(** [type Application struct]; a pointer field is [None] while it is
    [nil]. *)
Record Application : Type := {
  clientset : option Clientset;
  Kubeconfig : string;
  WhereToSearch : string;
  WhatToSearch : string;
  whatToSearchRe : option Regexp;
  Namespace : string;
  KubernetesObjects : list KubernetesObject.t;
  ShowTails : Z;
  Except : string;
  exceptRe : option Regexp
}.

Definition NewApplication : Application :=
  {| clientset := None;
     Kubeconfig := "";
     WhereToSearch := "";
     WhatToSearch := "";
     whatToSearchRe := None;
     Namespace := "";
     KubernetesObjects := [];
     ShowTails := 10;
     Except := "";
     exceptRe := None |}.

(* ------------------------------------------------------------------- *)
(** *** The monad of method bodies *)

Record State : Type := {
  app : Application;
  trace : list Event
}.

Inductive Outcome (A : Type) : Type :=
| Returned (a : A) (st : State)
| Panicked (st : State).
Arguments Returned {A} a st.
Arguments Panicked {A} st.

Definition Go (A : Type) : Type := State -> Outcome A.

Definition ret {A : Type} (a : A) : Go A := fun st => Returned a st.

Definition bind {A B : Type} (m : Go A) (k : A -> Go B) : Go B :=
  fun st =>
    match m st with
    | Returned a st' => k a st'
    | Panicked st' => Panicked st'
    end.

Definition panic {A : Type} : Go A := fun st => Panicked st.

(** Reading the receiver [a]. *)
Definition this : Go Application := fun st => Returned (app st) st.

Definition assign (f : Application -> Application) : Go unit :=
  fun st => Returned tt {| app := f (app st); trace := trace st |}.

Definition emit (e : Event) : Go unit :=
  fun st => Returned tt {| app := app st; trace := (trace st ++ [e])%list |}.

(** Dereferencing a pointer: a [nil] pointer panics. *)
Definition deref {A : Type} (p : option A) : Go A :=
  match p with
  | Some x => ret x
  | None => panic
  end.

(** [for _, x := range xs { body }] *)
Fixpoint forRange {A : Type} (xs : list A) (body : A -> Go unit) : Go unit :=
  match xs with
  | [] => ret tt
  | x :: xs' => bind (body x) (fun _ => forRange xs' body)
  end.

End Program.

Arguments Returned {_ _ A} a st.
Arguments Panicked {_ _ A} st.

Declare Scope go_scope.
Delimit Scope go_scope with go.
Notation "x <- m ;; k" := (bind m (fun x => k))
  (at level 61, m at next level, right associativity) : go_scope.
Notation "m ;; k" := (bind m (fun _ => k))
  (at level 61, right associativity) : go_scope.

(* ===================================================================== *)
(** ** Package [internal]: methods of [*Application] *)
(* ===================================================================== *)

Section Methods.
Context `{Unicode} `{RegexpEngine} `{Kubernetes}.
Local Open Scope go_scope.

Definition slog_Info (attrs : list (string * string)) (msg : string) : Go unit :=
  emit (Log LevelInfo attrs msg).

Definition slog_Debug (attrs : list (string * string)) (msg : string) : Go unit :=
  emit (Log LevelDebug attrs msg).

(** [func (a *Application) Validate() error] *)
Definition Validate (a : Application) : option error :=
  if String.eqb (Kubeconfig a) "" then
    Some (errorString "kubeconfig is required")
  else if String.eqb (WhereToSearch a) "" then
    Some (errorString "where-to-search is required")
  else if String.eqb (WhatToSearch a) "" then
    Some (errorString "what-to-search is required")
  else None.

Definition set_exceptRe (re : Regexp) (a : Application) : Application :=
  {| clientset := clientset a;
     Kubeconfig := Kubeconfig a;
     WhereToSearch := WhereToSearch a;
     WhatToSearch := WhatToSearch a;
     whatToSearchRe := whatToSearchRe a;
     Namespace := Namespace a;
     KubernetesObjects := KubernetesObjects a;
     ShowTails := ShowTails a;
     Except := Except a;
     exceptRe := Some re |}.

Definition set_whatToSearchRe (re : Regexp) (a : Application) : Application :=
  {| clientset := clientset a;
     Kubeconfig := Kubeconfig a;
     WhereToSearch := WhereToSearch a;
     WhatToSearch := WhatToSearch a;
     whatToSearchRe := Some re;
     Namespace := Namespace a;
     KubernetesObjects := KubernetesObjects a;
     ShowTails := ShowTails a;
     Except := Except a;
     exceptRe := exceptRe a |}.

Definition set_clientset (cs : Clientset) (a : Application) : Application :=
  {| clientset := Some cs;
     Kubeconfig := Kubeconfig a;
     WhereToSearch := WhereToSearch a;
     WhatToSearch := WhatToSearch a;
     whatToSearchRe := whatToSearchRe a;
     Namespace := Namespace a;
     KubernetesObjects := KubernetesObjects a;
     ShowTails := ShowTails a;
     Except := Except a;
     exceptRe := exceptRe a |}.

(** [a.KubernetesObjects = append(a.KubernetesObjects, o)] *)
Definition append_KubernetesObjects (o : KubernetesObject.t) (a : Application)
  : Application :=
  {| clientset := clientset a;
     Kubeconfig := Kubeconfig a;
     WhereToSearch := WhereToSearch a;
     WhatToSearch := WhatToSearch a;
     whatToSearchRe := whatToSearchRe a;
     Namespace := Namespace a;
     KubernetesObjects := (KubernetesObjects a ++ [o])%list;
     ShowTails := ShowTails a;
     Except := Except a;
     exceptRe := exceptRe a |}.

(** [func (a *Application) Init(ctx context.Context) error] *)
Definition Init : Go (option error) :=
  a <- this ;;
  match Compile (WhatToSearch a) with
  | inr err =>
      ret (Some (Wrap err ("error in regexp.Compile " ++ WhatToSearch a)))
  | inl whatToSearchRe' =>
      failed <-
        (if negb (String.eqb (Except a) "") then
           match Compile (Except a) with
           | inr err =>
               ret (Some (Wrap err ("error in regexp.Compile " ++ Except a)))
           | inl exceptRe' => assign (set_exceptRe exceptRe') ;; ret None
           end
         else ret None) ;;
      match failed with
      | Some err => ret (Some err)
      | None =>
          match BuildConfigFromFlags "" (Kubeconfig a) with
          | inr err =>
              ret (Some (Wrap err "error in clientcmd.BuildConfigFromFlags"))
          | inl restconfig =>
              match NewForConfig restconfig with
              | inr err =>
                  ret (Some (Wrap err "error in kubernetes.NewForConfig"))
              | inl clientset' =>
                  assign (set_whatToSearchRe whatToSearchRe') ;;
                  assign (set_clientset clientset') ;;
                  ret None
              end
          end
      end
  end.

(** [func (a *Application) isInWhere(obj string) bool] *)
Definition isInWhere (a : Application) (obj : string) : bool :=
  let objs := Split (ToLower (WhereToSearch a)) "," in
  Contains objs (ToLower obj).

(** The constant [typeOf] of each collection routine. *)
Definition typeOf (r : Resource) : string :=
  match r with
  | Pods => "Pods"
  | ConfigMaps => "ConfigMaps"
  | Deployments => "Deployments"
  | StatefulSets => "StatefulSets"
  | CronJobs => "CronJobs"
  end.

(** The list call of a collection routine: [a.clientset] is
    dereferenced, then the request goes out. *)
Definition list_ (r : Resource) : Go (list Item + error) :=
  a <- this ;;
  cs <- deref (clientset a) ;;
  emit (Call r (Namespace a)) ;;
  ret (ListResource cs r (Namespace a)).

(** The body shared by [getPods], [getConfigmaps], [getDeployments],
    [getStatefulSets] and [getCronJobs], which differ in [typeOf] and in
    the typed client they list from. *)
Definition getObjects (r : Resource) : Go (option error) :=
  a <- this ;;
  if negb (isInWhere a (typeOf r)) then ret None
  else
    slog_Info [] ("Getting " ++ typeOf r ++ " ...") ;;
    objects <- list_ r ;;
    match objects with
    | inr err => ret (Some (Wrap err ("error in " ++ typeOf r)))
    | inl items =>
        forRange items (fun object =>
          assign (append_KubernetesObjects
                    {| KubernetesObject.Kind := typeOf r;
                       KubernetesObject.Name := ItemName object;
                       KubernetesObject.Namespace := ItemNamespace object;
                       KubernetesObject.Object := ItemString object |})) ;;
        ret None
    end.

Definition getPods : Go (option error) := getObjects Pods.
Definition getConfigmaps : Go (option error) := getObjects ConfigMaps.
Definition getDeployments : Go (option error) := getObjects Deployments.
Definition getStatefulSets : Go (option error) := getObjects StatefulSets.
Definition getCronJobs : Go (option error) := getObjects CronJobs.

Definition newline : string := String (ascii_of_nat 10) EmptyString.

(** The attributes of the logger [slog.With("kind", ..., "name", ...,
    "namespace", ...)] of the loop body of [search]. *)
Definition attrsOf (obj : KubernetesObject.t) : list (string * string) :=
  [("kind", KubernetesObject.Kind obj);
   ("name", KubernetesObject.Name obj);
   ("namespace", KubernetesObject.Namespace obj)].

(** The body of [for _, loc := range locs] in [search]. *)
Definition report (obj : KubernetesObject.t) (loc : Z * Z) : Go unit :=
  a <- this ;;
  let start := GoInt.sub (fst loc) (ShowTails a) in
  let end_ := GoInt.add (snd loc) (ShowTails a) in
  let start := if start <? 0 then 0 else start in
  let max := len (KubernetesObject.Object obj) in
  let end_ := if end_ >? max then max else end_ in
  match slice (KubernetesObject.Object obj) start end_ with
  | None => panic
  | Some text =>
      let text := ReplaceAll text newline " " in
      slog_Info (attrsOf obj) text
  end.

(** The body of [for _, obj := range a.KubernetesObjects] in [search]. *)
Definition searchObject (obj : KubernetesObject.t) : Go unit :=
  a <- this ;;
  if match exceptRe a with
     | Some re =>
         MatchString re (KubernetesObject.Namespace obj ++ "/"
                         ++ KubernetesObject.Name obj)
     | None => false
     end
  then slog_Debug (attrsOf obj) "ignored"
  else
    re <- deref (whatToSearchRe a) ;;
    let locs :=
      FindAllStringIndex re (ToLower (KubernetesObject.Object obj)) (-1) in
    match locs with
    | [] => ret tt
    | _ => forRange locs (report obj)
    end.

(** [func (a *Application) search()] *)
Definition search : Go unit :=
  a <- this ;;
  forRange (KubernetesObjects a) searchObject.

Definition searchFuncs : list (Go (option error)) :=
  [getPods; getConfigmaps; getDeployments; getStatefulSets; getCronJobs].

(** [for _, f := range searchFuncs { if err := f(ctx); err != nil
    { return err } }]: [Some err] is the early return. *)
Fixpoint forSearchFuncs (fs : list (Go (option error))) : Go (option error) :=
  match fs with
  | [] => ret None
  | f :: fs' =>
      err <- f ;;
      match err with
      | Some e => ret (Some e)
      | None => forSearchFuncs fs'
      end
  end.

(** [func (a *Application) Run(ctx context.Context) error] *)
Definition Run : Go (option error) :=
  returned <- forSearchFuncs searchFuncs ;;
  match returned with
  | Some err => ret (Some err)
  | None => search ;; ret None
  end.

End Methods.

(* ===================================================================== *)
(** ** Package [main] *)
(* ===================================================================== *)

(** The command line: for each flag, the value given on it, if any. *)
Record Args : Type := {
  arg_kubeconfig : option string;
  arg_where : option string;
  arg_find : option string;
  arg_namespace : option string;
  arg_except : option string
}.

(** [flag.StringVar(&p, name, value, usage)] followed by [flag.Parse()]. *)
Definition StringVar (given : option string) (value : string) : string :=
  match given with
  | Some v => v
  | None => value
  end.

Section Main.
Context `{Unicode} `{RegexpEngine} `{Kubernetes}.
Local Open Scope go_scope.

(** The application [main] has built when [flag.Parse()] returns;
    [KUBECONFIG] is [os.Getenv("KUBECONFIG")]. *)
Definition parsed (KUBECONFIG : string) (args : Args) : Application :=
  {| clientset := clientset NewApplication;
     Kubeconfig := StringVar (arg_kubeconfig args) KUBECONFIG;
     WhereToSearch := StringVar (arg_where args) "*";
     WhatToSearch := StringVar (arg_find args) "";
     whatToSearchRe := whatToSearchRe NewApplication;
     Namespace := StringVar (arg_namespace args) "";
     KubernetesObjects := KubernetesObjects NewApplication;
     ShowTails := ShowTails NewApplication;
     Except := StringVar (arg_except args) "";
     exceptRe := exceptRe NewApplication |}.

(** [func main()]; [Some err] is the exit through [log.Fatal(err)]. *)
Definition main (KUBECONFIG : string) (args : Args) : Go (option error) :=
  assign (fun _ => parsed KUBECONFIG args) ;;
  application <- this ;;
  match Validate application with
  | Some err => ret (Some err)
  | None =>
      failed <- Init ;;
      match failed with
      | Some err => ret (Some err)
      | None => Run
      end
  end.

End Main.

(* ===================================================================== *)
(** ** Facts about byte strings and lower-casing *)
(* ===================================================================== *)

Section StringFacts.
Context `{Unicode}.

Lemma len_nonneg (s : string) : 0 <= len s.
Proof. unfold len. lia. Qed.

Lemma lowerByte_not_upper (c : ascii) : isUpperByte (lowerByte c) = false.
Proof. destruct c as [[] [] [] [] [] [] [] []]; reflexivity. Qed.

Lemma mapBytes_length (f : ascii -> ascii) (s : string) :
  String.length (mapBytes f s) = String.length s.
Proof. induction s as [|c s IH]; simpl; congruence. Qed.

Lemma hasUpper_mapBytes_lowerByte (s : string) :
  hasUpper (mapBytes lowerByte s) = false.
Proof.
  unfold hasUpper. induction s as [|c s IH]; simpl; [reflexivity|].
  now rewrite lowerByte_not_upper, IH.
Qed.


(** On ASCII text lower-casing rewrites bytes in place: the length is
    kept. *)
Lemma ToLower_ascii_len (s : string) :
  isASCII s = true -> len (ToLower s) = len s.
Proof.
  intros Ha. unfold ToLower. rewrite Ha.
  destruct (hasUpper s); [|reflexivity].
  unfold len. now rewrite mapBytes_length.
Qed.

(** The text of a context window, as the design describes it: every
    newline replaced by one space. *)
Definition newlinesToSpaces (s : string) : string :=
  mapBytes (fun c => if Ascii.eqb c (ascii_of_nat 10) then " "%char else c) s.

Lemma ReplaceAll_newline (s : string) :
  ReplaceAll s (String (ascii_of_nat 10) EmptyString) " " = newlinesToSpaces s.
Proof.
  unfold ReplaceAll, newlinesToSpaces.
  induction s as [|c s IH]; [reflexivity|].
  cbn [replaceFrom mapBytes prefix String.length Nat.sub].
  destruct (Ascii.eqb_spec c (ascii_of_nat 10)) as [->|Hne].
  - destruct (ascii_dec (ascii_of_nat 10) (ascii_of_nat 10)) as [_|Hc];
      [|congruence].
    destruct s; cbn [prefix]; cbn [append]; now rewrite IH.
  - destruct (ascii_dec (ascii_of_nat 10) c) as [Hc|_]; [congruence|].
    now rewrite IH.
Qed.

End StringFacts.

(* ===================================================================== *)
(** ** Facts about [FindAllStringIndex] *)
(* ===================================================================== *)

(** [successive lo locs hi]: the matches of [locs] lie between [lo] and
    [hi], and each one begins at or after the end of the one before it
    (left to right, without overlap). *)
Fixpoint successive (lo : Z) (locs : list (Z * Z)) (hi : Z) : Prop :=
  match locs with
  | [] => True
  | (b, e) :: rest => lo <= b /\ b <= e /\ e <= hi /\ successive e rest hi
  end.

Lemma successive_weaken (lo lo' hi : Z) (locs : list (Z * Z)) :
  lo' <= lo -> successive lo locs hi -> successive lo' locs hi.
Proof.
  destruct locs as [|[b e] rest]; simpl; [trivial|].
  intros Hle (Hb & Hbe & He & Hrest). repeat split; try assumption; lia.
Qed.

Lemma successive_in (lo hi : Z) (locs : list (Z * Z)) (b e : Z) :
  successive lo locs hi -> In (b, e) locs -> lo <= b /\ b <= e /\ e <= hi.
Proof.
  revert lo. induction locs as [|[b' e'] rest IH]; simpl; intros lo Hs Hin;
    [contradiction|].
  destruct Hs as (Hb & Hbe & He & Hrest).
  destruct Hin as [Heq|Hin].
  - inversion Heq; subst. lia.
  - specialize (IH e' Hrest Hin). lia.
Qed.

Section RegexpFacts.
Context `{RegexpEngine}.

Lemma allMatches_S (fuel : nat) (re : Regexp) (s : string)
      (n pos i prevMatchEnd : Z) :
  allMatches (S fuel) re s n pos i prevMatchEnd =
  if (i <? n) && (pos <=? len s) then
    match doExecute re s pos with
    | None => Some []
    | Some (m0, m1) =>
        let accept := negb ((m1 =? pos) && (m0 =? prevMatchEnd)) in
        let pos' :=
          if m1 =? pos
          then (let width := Utf8.step s pos in
                if 0 <? width then pos + width else len s + 1)
          else m1 in
        match allMatches fuel re s n pos' (if accept then i + 1 else i) m1 with
        | None => None
        | Some rest => Some (if accept then (m0, m1) :: rest else rest)
        end
    end
  else Some [].
Proof. reflexivity. Qed.

(** The position from which [allMatches] searches next. *)
Lemma allMatches_advance (s : string) (pos m0 m1 : Z) :
  0 <= pos <= len s -> pos <= m0 -> m0 <= m1 -> m1 <= len s ->
  let pos' :=
    if m1 =? pos
    then (let width := Utf8.step s pos in
          if 0 <? width then pos + width else len s + 1)
    else m1 in
  pos < pos' /\ m1 <= pos'.
Proof.
  intros Hpos H0 H01 H1. cbv zeta.
  destruct (Z.eqb_spec m1 pos) as [->|Hne]; [|lia].
  destruct (Z.ltb_spec 0 (Utf8.step s pos)) as [Hw|Hw]; [lia|].
  destruct (Z.eq_dec pos (len s)) as [->|Hlt]; [lia|].
  pose proof (Utf8.step_pos s pos ltac:(lia)). lia.
Qed.

Lemma allMatches_successive (fuel : nat) (re : Regexp) (s : string)
      (n pos i prevMatchEnd : Z) (locs : list (Z * Z)) :
  0 <= pos ->
  allMatches fuel re s n pos i prevMatchEnd = Some locs ->
  successive pos locs (len s).
Proof.
  revert pos i prevMatchEnd locs.
  induction fuel as [|fuel IH]; intros pos i prev locs Hpos; simpl;
    [discriminate|].
  destruct ((i <? n) && (pos <=? len s)) eqn:Hguard;
    [|intros [= <-]; exact I].
  apply andb_true_iff in Hguard as [_ Hle]. apply Z.leb_le in Hle.
  destruct (doExecute re s pos) as [[m0 m1]|] eqn:Hexec;
    [|intros [= <-]; exact I].
  destruct (doExecute_bounds re s pos m0 m1 ltac:(lia) Hexec) as (H0 & H01 & H1).
  destruct (allMatches_advance s pos m0 m1 ltac:(lia) H0 H01 H1) as [Hadv Hm1].
  cbv zeta in Hadv, Hm1.
  match goal with
  | |- context [allMatches fuel re s n ?p ?j m1] =>
      destruct (allMatches fuel re s n p j m1) as [rest|] eqn:Hrest;
        [|discriminate];
      apply IH in Hrest; [|lia]
  end.
  destruct (negb ((m1 =? pos) && (m0 =? prev))); intros [= <-].
  - simpl. repeat split; try assumption.
    eapply successive_weaken; [|exact Hrest]. exact Hm1.
  - eapply successive_weaken; [|exact Hrest]. lia.
Qed.

(** The loop finishes within the fuel [FindAllStringIndex] gives it. *)
Lemma allMatches_total (fuel : nat) (re : Regexp) (s : string)
      (n pos i prevMatchEnd : Z) :
  0 <= pos ->
  (Z.to_nat (len s + 1 - pos) < fuel)%nat ->
  exists locs, allMatches fuel re s n pos i prevMatchEnd = Some locs.
Proof.
  revert pos i prevMatchEnd.
  induction fuel as [|fuel IH]; intros pos i prev Hpos Hfuel; [lia|].
  simpl.
  destruct ((i <? n) && (pos <=? len s)) eqn:Hguard; [|eauto].
  apply andb_true_iff in Hguard as [_ Hle]. apply Z.leb_le in Hle.
  destruct (doExecute re s pos) as [[m0 m1]|] eqn:Hexec; [|eauto].
  destruct (doExecute_bounds re s pos m0 m1 ltac:(lia) Hexec) as (H0 & H01 & H1).
  destruct (allMatches_advance s pos m0 m1 ltac:(lia) H0 H01 H1) as [Hadv _].
  cbv zeta in Hadv.
  match goal with
  | |- context [allMatches fuel re s n ?p ?j m1] =>
      destruct (IH p j m1 ltac:(lia) ltac:(lia)) as [rest ->]
  end.
  eauto.
Qed.

(** Every match delivered is one the engine found. *)
Lemma allMatches_found (fuel : nat) (re : Regexp) (s : string)
      (n pos i prevMatchEnd : Z) (locs : list (Z * Z)) (loc : Z * Z) :
  0 <= pos ->
  allMatches fuel re s n pos i prevMatchEnd = Some locs ->
  In loc locs ->
  exists p, 0 <= p <= len s /\ doExecute re s p = Some loc.
Proof.
  revert pos i prevMatchEnd locs.
  induction fuel as [|fuel IH]; intros pos i prev locs Hpos; simpl;
    [discriminate|].
  destruct ((i <? n) && (pos <=? len s)) eqn:Hguard;
    [|intros [= <-] []].
  apply andb_true_iff in Hguard as [_ Hle]. apply Z.leb_le in Hle.
  destruct (doExecute re s pos) as [[m0 m1]|] eqn:Hexec;
    [|intros [= <-] []].
  destruct (doExecute_bounds re s pos m0 m1 ltac:(lia) Hexec) as (H0 & H01 & H1).
  destruct (allMatches_advance s pos m0 m1 ltac:(lia) H0 H01 H1) as [Hadv _].
  cbv zeta in Hadv.
  match goal with
  | |- context [allMatches fuel re s n ?p ?j m1] =>
      destruct (allMatches fuel re s n p j m1) as [rest|] eqn:Hrest;
        [|discriminate];
      pose proof (IH p j m1 rest ltac:(lia) Hrest) as IH'
  end.
  destruct (negb ((m1 =? pos) && (m0 =? prev))); intros [= <-] Hin.
  - destruct Hin as [<-|Hin]; [|auto].
    exists pos. split; [lia|exact Hexec].
  - auto.
Qed.

Lemma FindAllStringIndex_run (re : Regexp) (s : string) (n : Z) :
  allMatches (S (S (String.length s))) re s
             (if n <? 0 then len s + 1 else n) 0 0 (-1)
  = Some (FindAllStringIndex re s n).
Proof.
  unfold FindAllStringIndex.
  destruct (allMatches_total (S (S (String.length s))) re s
              (if n <? 0 then len s + 1 else n) 0 0 (-1)) as [locs ->];
    [lia | unfold len; lia | reflexivity].
Qed.

Lemma FindAllStringIndex_successive (re : Regexp) (s : string) (n : Z) :
  successive 0 (FindAllStringIndex re s n) (len s).
Proof.
  eapply allMatches_successive; [|apply FindAllStringIndex_run]. lia.
Qed.

Lemma FindAllStringIndex_bounds (re : Regexp) (s : string) (n b e : Z) :
  In (b, e) (FindAllStringIndex re s n) -> 0 <= b /\ b <= e /\ e <= len s.
Proof.
  intros Hin.
  exact (successive_in _ _ _ _ _ (FindAllStringIndex_successive re s n) Hin).
Qed.

Lemma FindAllStringIndex_found (re : Regexp) (s : string) (n : Z)
      (loc : Z * Z) :
  In loc (FindAllStringIndex re s n) ->
  exists p, 0 <= p <= len s /\ doExecute re s p = Some loc.
Proof.
  intros Hin.
  eapply allMatches_found; [|apply FindAllStringIndex_run|exact Hin]. lia.
Qed.


(** *** The left-to-right list of occurrences

    What the design calls the list of all non-overlapping matches,
    discovered left to right, and the documentation of package [regexp]
    the successive non-overlapping matches of the entire expression, where
    empty matches abutting a preceding match are ignored.  It is written
    here as the design has it: with no bound on the number of matches and
    no count of iterations. *)

(** Where the search goes on after a match that ends at [e] and was found
    from the position [pos]: at [e]; and when that would not move the
    search, one rune further (one byte past the end, at the end of the
    text). *)
Definition resumeAt (s : string) (pos e : Z) : Z :=
  if e =? pos then pos + Z.max 1 (Utf8.step s pos) else e.

(** [occurrences re s pos prev locs]: [locs] is the list of the
    occurrences of [re] in [s] met from the position [pos] on, where
    [prev] is the end of the occurrence before ([-1] when there is none).
    The next occurrence is the leftmost match at or after [pos]; it is
    left out when it is empty and begins where the occurrence before it
    ended. *)
Inductive occurrences (re : Regexp) (s : string)
  : Z -> Z -> list (Z * Z) -> Prop :=
| occurrences_end (pos prev : Z) :
    len s < pos ->
    occurrences re s pos prev []
| occurrences_none (pos prev : Z) :
    pos <= len s ->
    doExecute re s pos = None ->
    occurrences re s pos prev []
| occurrences_next (pos prev b e : Z) (rest : list (Z * Z)) :
    pos <= len s ->
    doExecute re s pos = Some (b, e) ->
    ~ (b = e /\ b = prev) ->
    occurrences re s (resumeAt s pos e) e rest ->
    occurrences re s pos prev ((b, e) :: rest)
| occurrences_abutting (pos prev b e : Z) (rest : list (Z * Z)) :
    pos <= len s ->
    doExecute re s pos = Some (b, e) ->
    b = e -> b = prev ->
    occurrences re s (resumeAt s pos e) e rest ->
    occurrences re s pos prev rest.

(** The list of occurrences is determined by the text and the
    expression. *)
Lemma occurrences_unique (re : Regexp) (s : string) (pos prev : Z)
      (l1 l2 : list (Z * Z)) :
  occurrences re s pos prev l1 -> occurrences re s pos prev l2 -> l1 = l2.
Proof.
  intros H1. revert l2.
  induction H1 as [pos prev Hend
                  |pos prev Hle Hnone
                  |pos prev b e rest Hle Hsome Hkeep Hrest IH
                  |pos prev b e rest Hle Hsome Hbe Hbp Hrest IH];
    intros l2 H2.
  - inversion H2; subst; try reflexivity; lia.
  - inversion H2; subst; try reflexivity; congruence.
  - inversion H2 as [| |? ? b2 e2 rest2 _ Hsome2 _ Hrest2
                        |? ? b2 e2 rest2 _ Hsome2 Hbe2 Hbp2 Hrest2];
      subst; try lia; try congruence.
    + assert (Heq : (b2, e2) = (b, e)) by congruence.
      injection Heq as -> ->. f_equal. now apply IH.
    + rewrite Hsome in Hsome2. injection Hsome2 as Hb He.
      exfalso. apply Hkeep. split; congruence.
  - inversion H2 as [| |? ? b2 e2 rest2 _ Hsome2 Hkeep2 Hrest2
                        |? ? b2 e2 rest2 _ Hsome2 Hbe2 Hbp2 Hrest2];
      try lia; try congruence.
    + exfalso. apply Hkeep2. split; congruence.
    + subst. apply IH. assumption.
Qed.

(** The position [allMatches] computes is the one the search resumes
    at. *)
Lemma allMatches_resumeAt (s : string) (pos m1 : Z) :
  0 <= pos <= len s ->
  (if m1 =? pos
   then (if 0 <? Utf8.step s pos then pos + Utf8.step s pos else len s + 1)
   else m1)
  = resumeAt s pos m1.
Proof.
  intros Hpos. unfold resumeAt.
  destruct (m1 =? pos); [|reflexivity].
  destruct (Z.ltb_spec 0 (Utf8.step s pos)) as [Hw|Hw]; [lia|].
  destruct (Z.eq_dec pos (len s)) as [->|Hlt]; [lia|].
  pose proof (Utf8.step_pos s pos ltac:(lia)). lia.
Qed.

(** The loop delivers the list of occurrences, all of it: with a limit
    above the length of the text, the count [i] of the matches delivered
    stays at or below the position [pos], so the limit never ends the
    loop. *)
Lemma allMatches_occurrences (fuel : nat) (re : Regexp) (s : string)
      (n pos i prevMatchEnd : Z) (locs : list (Z * Z)) :
  0 <= pos -> prevMatchEnd <= pos -> i <= pos -> len s < n ->
  allMatches fuel re s n pos i prevMatchEnd = Some locs ->
  occurrences re s pos prevMatchEnd locs.
Proof.
  revert pos i prevMatchEnd locs.
  induction fuel as [|fuel IH]; intros pos i prev locs Hpos Hprev Hi Hn;
    [discriminate|].
  rewrite allMatches_S.
  destruct (Z.leb_spec pos (len s)) as [Hle|Hgt].
  - replace (i <? n) with true by (symmetry; apply Z.ltb_lt; lia).
    cbn [andb].
    destruct (doExecute re s pos) as [[m0 m1]|] eqn:Hexec;
      [|intros [= <-]; now apply occurrences_none].
    destruct (doExecute_bounds re s pos m0 m1 ltac:(lia) Hexec)
      as (H0 & H01 & H1).
    destruct (allMatches_advance s pos m0 m1 ltac:(lia) H0 H01 H1)
      as [Hadv Hm1].
    cbv zeta in Hadv, Hm1 |- *.
    rewrite (allMatches_resumeAt s pos m1 ltac:(lia)) in Hadv, Hm1 |- *.
    match goal with
    | |- context [allMatches fuel re s n (resumeAt s pos m1) ?j m1] =>
        assert (Hj : j <= resumeAt s pos m1)
          by (destruct (negb ((m1 =? pos) && (m0 =? prev))); lia);
        destruct (allMatches fuel re s n (resumeAt s pos m1) j m1)
          as [rest|] eqn:Hrest; [|discriminate];
        apply IH in Hrest; [|lia|lia|exact Hj|exact Hn]
    end.
    destruct ((m1 =? pos) && (m0 =? prev)) eqn:Hacc; cbn [negb];
      intros [= <-].
    + apply andb_true_iff in Hacc as [Hm1pos Hm0prev].
      apply Z.eqb_eq in Hm1pos, Hm0prev.
      apply occurrences_abutting with (b := m0) (e := m1);
        try assumption; lia.
    + apply occurrences_next; try assumption.
      intros [Hbe Hbp]. apply andb_false_iff in Hacc as [Hacc|Hacc];
        apply Z.eqb_neq in Hacc; lia.
  - rewrite andb_false_r. intros [= <-]. now apply occurrences_end.
Qed.

(** With no limit ([n = -1]) the result is the list of the occurrences of
    the expression in the text, from its beginning. *)
Lemma FindAllStringIndex_occurrences (re : Regexp) (s : string) :
  occurrences re s 0 (-1) (FindAllStringIndex re s (-1)).
Proof.
  pose proof (FindAllStringIndex_run re s (-1)) as Hrun.
  change (-1 <? 0) with true in Hrun. cbv iota in Hrun.
  eapply allMatches_occurrences; [| | | |exact Hrun]; lia.
Qed.

End RegexpFacts.

(* ===================================================================== *)
(** ** Facts about the monad *)
(* ===================================================================== *)

Section MonadFacts.
Context `{RegexpEngine} `{Kubernetes}.

(** The state [st] after the events [evs] were written. *)
Definition logged (st : State) (evs : list Event) : State :=
  {| app := app st; trace := (trace st ++ evs)%list |}.

Definition outcomeOf {A : Type} (res : option A) (st : State) : Outcome A :=
  match res with
  | Some x => Returned x st
  | None => Panicked st
  end.

(** [scans m a evs res]: run on the application [a], the computation
    [m] leaves [a] as it is, appends [evs] to the trace and ends with
    [res] ([None] for a panic), whatever the trace held before. *)
Definition scans {A : Type} (m : Go A) (a : Application)
           (evs : list Event) (res : option A) : Prop :=
  forall tr,
    m {| app := a; trace := tr |}
    = outcomeOf res {| app := a; trace := (tr ++ evs)%list |}.

(** [writes P m]: [m] only reads the application and only appends to
    the trace, and every event it appends on the application [a]
    satisfies [P a]. *)
Definition writes {A : Type} (P : Application -> Event -> Prop) (m : Go A)
  : Prop :=
  forall a, exists evs res, scans m a evs res /\ Forall (P a) evs.

Lemma scans_ret {A : Type} (x : A) (a : Application) :
  scans (ret x) a [] (Some x).
Proof. intros tr. unfold ret. simpl. now rewrite app_nil_r. Qed.

Lemma scans_panic {A : Type} (a : Application) :
  scans (@panic _ _ A) a [] None.
Proof. intros tr. unfold panic. simpl. now rewrite app_nil_r. Qed.

Lemma scans_emit (e : Event) (a : Application) :
  scans (emit e) a [e] (Some tt).
Proof. intros tr. reflexivity. Qed.

Lemma scans_bind {A B : Type} (m : Go A) (k : A -> Go B) (a : Application)
      (evs1 evs2 : list Event) (x : A) (res : option B) :
  scans m a evs1 (Some x) ->
  scans (k x) a evs2 res ->
  scans (bind m k) a (evs1 ++ evs2) res.
Proof.
  intros Hm Hk tr. unfold bind. rewrite Hm. simpl.
  rewrite Hk. now rewrite app_assoc.
Qed.

Lemma scans_bind_panic {A B : Type} (m : Go A) (k : A -> Go B)
      (a : Application) (evs : list Event) :
  scans m a evs None ->
  scans (bind m k) a evs None.
Proof. intros Hm tr. unfold bind. now rewrite Hm. Qed.

(** What [scans] says of a run from a given state. *)
Lemma scans_run {A : Type} (m : Go A) (st : State) (evs : list Event)
      (res : option A) :
  scans m (app st) evs res -> m st = outcomeOf res (logged st evs).
Proof. intros Hs. destruct st as [a tr]. apply Hs. Qed.

Section Writes.
Variable P : Application -> Event -> Prop.

Lemma writes_ret {A : Type} (x : A) : writes P (ret x).
Proof. intros a. exists [], (Some x). split; [apply scans_ret|constructor]. Qed.

Lemma writes_panic {A : Type} : writes P (@panic _ _ A).
Proof. intros a. exists [], None. split; [apply scans_panic|constructor]. Qed.

Lemma writes_deref {A : Type} (p : option A) : writes P (deref p).
Proof. destruct p; [apply writes_ret | apply writes_panic]. Qed.

Lemma writes_bind {A B : Type} (m : Go A) (k : A -> Go B) :
  writes P m -> (forall x, writes P (k x)) -> writes P (bind m k).
Proof.
  intros Hm Hk a. destruct (Hm a) as (evs1 & [x|] & H1 & HP1).
  - destruct (Hk x a) as (evs2 & res & H2 & HP2).
    exists (evs1 ++ evs2)%list, res. split.
    + eapply scans_bind; eassumption.
    + apply Forall_app. now split.
  - exists evs1, None. split; [now apply scans_bind_panic|assumption].
Qed.

(** A computation that starts by reading the receiver. *)
Lemma writes_this {B : Type} (k : Application -> Go B) :
  (forall a, exists evs res, scans (k a) a evs res /\ Forall (P a) evs) ->
  writes P (bind this k).
Proof.
  intros Hk a. destruct (Hk a) as (evs & res & Hs & HP).
  exists evs, res. split; [|assumption].
  intros tr. unfold bind, this. simpl. apply Hs.
Qed.

Lemma writes_forRange {A : Type} (xs : list A) (body : A -> Go unit) :
  (forall x, In x xs -> writes P (body x)) -> writes P (forRange xs body).
Proof.
  induction xs as [|x xs IH]; intros Hbody; simpl.
  - apply writes_ret.
  - apply writes_bind; [apply Hbody; now left|].
    intros _. apply IH. intros y Hy. apply Hbody. now right.
Qed.

End Writes.

Lemma writes_weaken {A : Type} (P Q : Application -> Event -> Prop)
      (m : Go A) :
  (forall a e, P a e -> Q a e) -> writes P m -> writes Q m.
Proof.
  intros HPQ Hm a. destruct (Hm a) as (evs & res & Hs & HP).
  exists evs, res. split; [assumption|].
  eapply Forall_impl; [apply HPQ|exact HP].
Qed.

End MonadFacts.

(* ===================================================================== *)
(** ** Facts about the scan *)
(* ===================================================================== *)

(** The bytes of [text] at the positions [lo <= i < hi]. *)
Definition window (text : string) (lo hi : Z) : string :=
  substring (Z.to_nat lo) (Z.to_nat (hi - lo)) text.

Section ScanFacts.
Context `{Unicode} `{RegexpEngine} `{Kubernetes}.

(** The message [report] writes for a match, [None] when the slice
    expression panics. *)
Definition snippet (a : Application) (obj : KubernetesObject.t)
           (loc : Z * Z) : option string :=
  let start := GoInt.sub (fst loc) (ShowTails a) in
  let end_ := GoInt.add (snd loc) (ShowTails a) in
  let start := if start <? 0 then 0 else start in
  let max := len (KubernetesObject.Object obj) in
  let end_ := if end_ >? max then max else end_ in
  match slice (KubernetesObject.Object obj) start end_ with
  | None => None
  | Some text => Some (ReplaceAll text newline " ")
  end.

Definition reported (obj : KubernetesObject.t) (text : string) : Event :=
  Log LevelInfo (attrsOf obj) text.

Definition ignored (obj : KubernetesObject.t) : Event :=
  Log LevelDebug (attrsOf obj) "ignored".

(** [excluded a obj]: the condition of the first [if] of the loop body
    of [search]. *)
Definition excluded (a : Application) (obj : KubernetesObject.t) : bool :=
  match exceptRe a with
  | Some re =>
      MatchString re (KubernetesObject.Namespace obj ++ "/"
                      ++ KubernetesObject.Name obj)
  | None => false
  end.

Lemma report_run (obj : KubernetesObject.t) (loc : Z * Z) (st : State) :
  report obj loc st =
  match snippet (app st) obj loc with
  | Some text => Returned tt (logged st [reported obj text])
  | None => Panicked st
  end.
Proof.
  unfold report, snippet, bind, this. cbv zeta.
  destruct (slice _ _ _); reflexivity.
Qed.

(** The events the loop body of [search] can write for [obj]: the
    "ignored" record when [obj] is excluded, else the snippet of a match
    of the search expression in the lower-cased text. *)
Definition writtenFor (obj : KubernetesObject.t) (a : Application)
           (e : Event) : Prop :=
  (excluded a obj = true /\ e = ignored obj)
  \/ (excluded a obj = false
      /\ exists re loc text,
          whatToSearchRe a = Some re
          /\ In loc (FindAllStringIndex
                       re (ToLower (KubernetesObject.Object obj)) (-1))
          /\ snippet a obj loc = Some text
          /\ e = reported obj text).

(** The events [search] can write. *)
Definition scanned (a : Application) (e : Event) : Prop :=
  exists obj, In obj (KubernetesObjects a) /\ writtenFor obj a e.

Lemma report_writes (obj : KubernetesObject.t) (loc : Z * Z) :
  writes (fun a e => exists text,
              snippet a obj loc = Some text /\ e = reported obj text)
         (report obj loc).
Proof.
  intros a. destruct (snippet a obj loc) as [text|] eqn:Hs.
  - exists [reported obj text], (Some tt). split.
    + intros tr. rewrite report_run. cbn [app]. now rewrite Hs.
    + constructor; [eauto|constructor].
  - exists [], None. split; [|constructor]. intros tr.
    rewrite report_run. cbn [app]. rewrite Hs. simpl. now rewrite app_nil_r.
Qed.

Lemma reports_write (obj : KubernetesObject.t) (locs : list (Z * Z)) :
  writes (fun a e => exists loc text,
              In loc locs /\ snippet a obj loc = Some text
              /\ e = reported obj text)
         (forRange locs (report obj)).
Proof.
  apply writes_forRange. intros loc Hin.
  eapply writes_weaken; [|apply report_writes].
  intros a e (text & Hs & He). eauto.
Qed.

Lemma searchObject_writes (obj : KubernetesObject.t) :
  writes (writtenFor obj) (searchObject obj).
Proof.
  unfold searchObject. apply writes_this. intros a. fold (excluded a obj).
  destruct (excluded a obj) eqn:Hex.
  - exists [ignored obj], (Some tt). split; [apply scans_emit|].
    constructor; [|constructor]. left. now split.
  - destruct (whatToSearchRe a) as [re|] eqn:Hre; cbn [deref].
    + cbv zeta.
      assert (Hk : exists evs res,
                 scans (match FindAllStringIndex
                                re (ToLower (KubernetesObject.Object obj)) (-1)
                        with
                        | [] => ret tt
                        | _ :: _ =>
                            forRange
                              (FindAllStringIndex
                                 re (ToLower (KubernetesObject.Object obj)) (-1))
                              (report obj)
                        end) a evs res
                 /\ Forall (writtenFor obj a) evs).
      { destruct (reports_write
                    obj
                    (FindAllStringIndex
                       re (ToLower (KubernetesObject.Object obj)) (-1)) a)
          as (evs & res & Hs & HP).
        destruct (FindAllStringIndex
                    re (ToLower (KubernetesObject.Object obj)) (-1))
          as [|loc locs] eqn:Hlocs.
        - exists [], (Some tt). split; [apply scans_ret|constructor].
        - exists evs, res. split; [exact Hs|].
          eapply Forall_impl; [|exact HP].
          intros e (loc' & text & Hin & Hsn & He). right.
          split; [exact Hex|]. exists re, loc', text.
          repeat split; try assumption. now rewrite Hlocs. }
      destruct Hk as (evs & res & Hs & HP). exists evs, res.
      split; [|exact HP].
      intros tr. unfold bind at 1, ret at 1. apply Hs.
    + exists [], None. split; [|constructor].
      intros tr. unfold bind, panic. simpl. now rewrite app_nil_r.
Qed.

Lemma search_writes : writes scanned search.
Proof.
  unfold search. apply writes_this. intros a.
  destruct (writes_forRange
              (fun a' e => exists obj,
                   In obj (KubernetesObjects a) /\ writtenFor obj a' e)
              (KubernetesObjects a) searchObject) with (a := a)
    as (evs & res & Hs & HP).
  - intros obj Hin. eapply writes_weaken; [|apply searchObject_writes].
    intros a' e Hw. eauto.
  - exists evs, res. split; assumption.
Qed.

(** The window of a match that ends inside the text, and the message
    written for it. *)
Lemma snippet_window (a : Application) (obj : KubernetesObject.t) (s e : Z) :
  let r := ShowTails a in
  let L := len (KubernetesObject.Object obj) in
  0 <= s -> s <= e -> s <= L + r -> 0 <= r -> e + r <= GoInt.maxInt ->
  snippet a obj (s, e) =
  Some (newlinesToSpaces
          (window (KubernetesObject.Object obj)
                  (Z.max 0 (s - r)) (Z.min L (e + r)))).
Proof.
  intros r L Hs Hse HsL Hr Hmax. unfold snippet. cbn [fst snd].
  fold r. fold L. unfold GoInt.sub, GoInt.add.
  assert (HL : 0 <= L) by apply len_nonneg.
  rewrite !GoInt.wrap_inRange
    by (unfold GoInt.inRange, GoInt.minInt, GoInt.maxInt in *; lia).
  replace (if s - r <? 0 then 0 else s - r) with (Z.max 0 (s - r))
    by (destruct (Z.ltb_spec (s - r) 0); lia).
  replace (if e + r >? L then L else e + r) with (Z.min L (e + r))
    by (rewrite Z.gtb_ltb; destruct (Z.ltb_spec L (e + r)); lia).
  unfold slice. fold L.
  replace ((0 <=? Z.max 0 (s - r)) && (Z.max 0 (s - r) <=? Z.min L (e + r))
           && (Z.min L (e + r) <=? L)) with true.
  - unfold newline. now rewrite ReplaceAll_newline.
  - symmetry. rewrite !andb_true_iff, !Z.leb_le. lia.
Qed.

End ScanFacts.

(* ===================================================================== *)
(** ** Instances to run the program on *)
(* ===================================================================== *)

(** Lower-casing that leaves every byte outside ASCII as it is: what
    [strings.ToLower] does to text whose non-ASCII runes have no case. *)
Definition bytewise : Unicode :=
  {| MapToLower := mapBytes lowerByte;
     MapToLower_no_upper := hasUpper_mapBytes_lowerByte |}.

(** The fragment of the expression syntax without operators: a literal,
    optionally anchored by a leading [^] and a final [$]. *)
Module Literal.

Record t : Type := {
  atStart : bool;
  body : string;
  atEnd : bool
}.

(** Does the expression match at offset [i], where [rest] is the text
    from [i] on? *)
Definition here (re : t) (i : nat) (rest : string) : bool :=
  (negb (atStart re) || Nat.eqb i 0)
  && (if atEnd re then String.eqb rest (body re) else prefix (body re) rest).

(** The leftmost offset at or after [i] where the expression matches. *)
Fixpoint find (re : t) (i : nat) (rest : string) {struct rest} : option nat :=
  if here re i rest then Some i
  else match rest with
       | EmptyString => None
       | String _ rest' => find re (S i) rest'
       end.

Definition execute (re : t) (s : string) (pos : Z) : option (Z * Z) :=
  if (0 <=? pos) && (pos <=? len s) then
    match find re (Z.to_nat pos) (Utf8.from (Z.to_nat pos) s) with
    | Some i => Some (Z.of_nat i, Z.of_nat i + len (body re))
    | None => None
    end
  else None.

Definition isMeta (c : ascii) : bool :=
  anyByte (Ascii.eqb c) "\.+*?()|[]{}^$".

(** [s] without a final [$], and whether there was one. *)
Fixpoint stripEnd (s : string) : string * bool :=
  match s with
  | EmptyString => (EmptyString, false)
  | String c EmptyString =>
      if Ascii.eqb c "$" then (EmptyString, true) else (s, false)
  | String c s' => let (b, e) := stripEnd s' in (String c b, e)
  end.

Definition compile (expr : string) : t + error :=
  let (start, s) :=
    match expr with
    | String "^" s' => (true, s')
    | _ => (false, expr)
    end in
  let (b, e) := stripEnd s in
  if anyByte isMeta b
  then inr (errorString ("error parsing regexp: not a literal: " ++ expr))
  else inl {| atStart := start; body := b; atEnd := e |}.

Lemma prefix_length (p s : string) :
  prefix p s = true -> (String.length p <= String.length s)%nat.
Proof.
  revert s. induction p as [|c p IH]; intros [|d s]; simpl; try lia;
    try discriminate.
  destruct (ascii_dec c d); [|discriminate].
  intros Hp. apply IH in Hp. lia.
Qed.

Lemma here_length (re : t) (i : nat) (rest : string) :
  here re i rest = true ->
  (String.length (body re) <= String.length rest)%nat.
Proof.
  unfold here. intros Hh. apply andb_true_iff in Hh as [_ Hh].
  destruct (atEnd re).
  - apply String.eqb_eq in Hh. subst. lia.
  - now apply prefix_length.
Qed.

Lemma find_bounds (re : t) (rest : string) (i j : nat) :
  find re i rest = Some j ->
  (i <= j /\ j + String.length (body re) <= i + String.length rest)%nat.
Proof.
  revert i. induction rest as [|c rest IH]; intros i; simpl.
  - destruct (here re i EmptyString) eqn:Hh; [|discriminate].
    intros [= <-]. apply here_length in Hh. simpl in Hh. lia.
  - destruct (here re i (String c rest)) eqn:Hh.
    + intros [= <-]. apply here_length in Hh. simpl in Hh. lia.
    + intros Hf. apply IH in Hf. lia.
Qed.

Lemma from_length (n : nat) (s : string) :
  (n <= String.length s)%nat ->
  String.length (Utf8.from n s) = (String.length s - n)%nat.
Proof.
  revert s. induction n as [|n IH]; intros [|c s]; simpl; intros Hn;
    try lia.
  apply IH. lia.
Qed.

Lemma execute_bounds (re : t) (s : string) (pos b e : Z) :
  0 <= pos <= len s ->
  execute re s pos = Some (b, e) ->
  pos <= b /\ b <= e /\ e <= len s.
Proof.
  intros Hpos. unfold execute.
  destruct ((0 <=? pos) && (pos <=? len s)); [|discriminate].
  destruct (find re (Z.to_nat pos) (Utf8.from (Z.to_nat pos) s)) as [i|] eqn:Hf;
    [|discriminate].
  intros [= <- <-]. apply find_bounds in Hf.
  unfold len in *. rewrite from_length in Hf by lia. lia.
Qed.

Definition engine : RegexpEngine :=
  {| Regexp := t;
     Compile := compile;
     doExecute := execute;
     doExecute_bounds := execute_bounds |}.

End Literal.

(** A cluster that answers every list call from a table. *)
Definition canned (cluster : Resource -> string -> list Item + error)
  : Kubernetes :=
  {| RestConfig := string;
     Clientset := Resource -> string -> list Item + error;
     BuildConfigFromFlags := fun _ kubeconfig => inl kubeconfig;
     NewForConfig := fun _ => inl cluster;
     ListResource := fun cs => cs |}.

(* ===================================================================== *)
(** ** Facts about the collection *)
(* ===================================================================== *)

(** The fixed order in which [Run] calls the collection routines. *)
Definition order : list Resource :=
  [Pods; ConfigMaps; Deployments; StatefulSets; CronJobs].

Section CollectFacts.
Context `{Unicode} `{RegexpEngine} `{Kubernetes}.

(** The [KubernetesObject] a collection routine builds from an item. *)
Definition toObject (r : Resource) (object : Item) : KubernetesObject.t :=
  {| KubernetesObject.Kind := typeOf r;
     KubernetesObject.Name := ItemName object;
     KubernetesObject.Namespace := ItemNamespace object;
     KubernetesObject.Object := ItemString object |}.

(** The application with [os] appended to its store. *)
Definition stored (os : list KubernetesObject.t) (a : Application)
  : Application :=
  {| clientset := clientset a;
     Kubeconfig := Kubeconfig a;
     WhereToSearch := WhereToSearch a;
     WhatToSearch := WhatToSearch a;
     whatToSearchRe := whatToSearchRe a;
     Namespace := Namespace a;
     KubernetesObjects := (KubernetesObjects a ++ os)%list;
     ShowTails := ShowTails a;
     Except := Except a;
     exceptRe := exceptRe a |}.

Definition getting (r : Resource) : Event :=
  Log LevelInfo [] ("Getting " ++ typeOf r ++ " ...").

(** What the routine of [r] writes to the trace when the client is
    there: nothing for a resource out of scope, else the log line and
    the list call. *)
Definition calls (a : Application) (r : Resource) : list Event :=
  if isInWhere a (typeOf r)
  then [getting r; Call r (Namespace a)]
  else [].

(** What the routine of [r] adds to the store. *)
Definition fetched (a : Application) (r : Resource)
  : list KubernetesObject.t :=
  if isInWhere a (typeOf r) then
    match clientset a with
    | Some cs =>
        match ListResource cs r (Namespace a) with
        | inl items => map (toObject r) items
        | inr _ => []
        end
    | None => []
    end
  else [].

Lemma stored_nil (a : Application) : stored [] a = a.
Proof. destruct a. unfold stored. simpl. now rewrite app_nil_r. Qed.

Lemma stored_stored (os1 os2 : list KubernetesObject.t) (a : Application) :
  stored os2 (stored os1 a) = stored (os1 ++ os2) a.
Proof. unfold stored. simpl. now rewrite app_assoc. Qed.

Lemma fetched_stored (os : list KubernetesObject.t) (a : Application)
      (r : Resource) :
  fetched (stored os a) r = fetched a r.
Proof. reflexivity. Qed.

Lemma forRange_append (r : Resource) (items : list Item) (st : State) :
  forRange items
    (fun object => assign (append_KubernetesObjects (toObject r object))) st
  = Returned tt {| app := stored (map (toObject r) items) (app st);
                   trace := trace st |}.
Proof.
  revert st. induction items as [|object items IH]; intros st.
  - simpl. unfold ret. rewrite stored_nil. now destruct st.
  - cbn [forRange map]. unfold bind at 1. unfold assign at 1.
    rewrite IH. cbn [app trace]. do 2 f_equal.
    unfold stored, append_KubernetesObjects. simpl.
    now rewrite <- app_assoc.
Qed.

Lemma getObjects_run (r : Resource) (st : State) :
  getObjects r st =
  if isInWhere (app st) (typeOf r) then
    match clientset (app st) with
    | None => Panicked (logged st [getting r])
    | Some cs =>
        match ListResource cs r (Namespace (app st)) with
        | inr err =>
            Returned (Some (Wrap err ("error in " ++ typeOf r)))
                     (logged st (calls (app st) r))
        | inl items =>
            Returned None
                     {| app := stored (fetched (app st) r) (app st);
                        trace := (trace st ++ calls (app st) r)%list |}
        end
    end
  else Returned None st.
Proof.
  unfold getObjects, calls, fetched, bind at 1, this at 1.
  destruct (isInWhere (app st) (typeOf r)) eqn:Hin; [|reflexivity].
  cbn [negb]. unfold slog_Info, list_, bind, this, emit. cbn [app trace].
  destruct (clientset (app st)) as [cs|]; cbn [deref]; [|reflexivity].
  unfold ret at 1. cbn [app trace]. unfold ret at 1.
  destruct (ListResource cs r (Namespace (app st))) as [items|err].
  - fold (toObject r).
    change (fun object : Item =>
              assign (append_KubernetesObjects
                        {| KubernetesObject.Kind := typeOf r;
                           KubernetesObject.Name := ItemName object;
                           KubernetesObject.Namespace := ItemNamespace object;
                           KubernetesObject.Object := ItemString object |}))
      with (fun object : Item =>
              assign (append_KubernetesObjects (toObject r object))).
    rewrite forRange_append. unfold ret. cbn [app trace].
    now rewrite <- app_assoc.
  - unfold ret, logged. cbn [app trace]. now rewrite <- app_assoc.
Qed.

Lemma searchFuncs_order : searchFuncs = map getObjects order.
Proof. reflexivity. Qed.

Lemma forSearchFuncs_app (fs gs : list (Go (option error))) (st : State) :
  forSearchFuncs (fs ++ gs) st =
  match forSearchFuncs fs st with
  | Returned None st' => forSearchFuncs gs st'
  | other => other
  end.
Proof.
  revert st. induction fs as [|f fs IH]; intros st; [reflexivity|].
  cbn [List.app forSearchFuncs]. unfold bind.
  destruct (f st) as [[e|] st'|st']; [reflexivity | apply IH | reflexivity].
Qed.

(** A collection that returns no error has listed every resource in
    scope, in the order given, and has written nothing else. *)
Lemma collect_returned (rs : list Resource) (st st' : State) :
  forSearchFuncs (map getObjects rs) st = Returned None st' ->
  app st' = stored (List.concat (map (fetched (app st)) rs)) (app st)
  /\ trace st' = (trace st ++ List.concat (map (calls (app st)) rs))%list.
Proof.
  revert st. induction rs as [|r rs IH]; intros st.
  - simpl. unfold ret. intros [= <-].
    now rewrite stored_nil, app_nil_r.
  - cbn [map forSearchFuncs List.concat]. unfold bind. rewrite getObjects_run.
    destruct (isInWhere (app st) (typeOf r)) eqn:Hin.
    + destruct (clientset (app st)) as [cs|] eqn:Hcs; [|discriminate].
      destruct (ListResource cs r (Namespace (app st))) as [items|err] eqn:Hl;
        [|discriminate].
      intros Hrest. apply IH in Hrest. cbn [app trace] in Hrest.
      destruct Hrest as [Happ Htr]. rewrite Happ, Htr.
      rewrite stored_stored, <- app_assoc. now split.
    + intros Hrest. apply IH in Hrest. destruct Hrest as [Happ Htr].
      rewrite Happ, Htr. unfold fetched at 2, calls at 2. rewrite Hin.
      now split.
Qed.

(** Conversely, when the client is there and every list call in scope
    succeeds, the collection returns no error. *)
Lemma collect_succeeds (rs : list Resource) (st : State) (cs : Clientset) :
  clientset (app st) = Some cs ->
  (forall r, In r rs -> isInWhere (app st) (typeOf r) = true ->
             exists items, ListResource cs r (Namespace (app st)) = inl items) ->
  forSearchFuncs (map getObjects rs) st =
  Returned None
    {| app := stored (List.concat (map (fetched (app st)) rs)) (app st);
       trace := (trace st ++ List.concat (map (calls (app st)) rs))%list |}.
Proof.
  revert st. induction rs as [|r rs IH]; intros st Hcs Hok.
  - simpl. unfold ret. rewrite stored_nil, app_nil_r. now destruct st.
  - cbn [map forSearchFuncs List.concat]. unfold bind. rewrite getObjects_run.
    destruct (isInWhere (app st) (typeOf r)) eqn:Hin.
    + rewrite Hcs.
      destruct (Hok r (or_introl eq_refl) Hin) as [items Hl]. rewrite Hl.
      rewrite IH; cbn [app trace].
      * rewrite stored_stored, <- app_assoc. reflexivity.
      * exact Hcs.
      * intros r' Hr'. apply Hok. now right.
    + rewrite IH by (try exact Hcs; intros r' Hr'; apply Hok; now right).
      unfold fetched at 2, calls at 2. rewrite Hin. reflexivity.
Qed.

End CollectFacts.

(* ===================================================================== *)
(** ** Facts about [Run] *)
(* ===================================================================== *)

Section RunFacts.
Context `{Unicode} `{RegexpEngine} `{Kubernetes}.

(** The state a computation ends in, returned or panicked. *)
Definition stateOf {A : Type} (o : Outcome A) : State :=
  match o with
  | Returned _ st => st
  | Panicked st => st
  end.

(** The events the collection can write: the log line and the list call
    of a resource in scope. *)
Definition collecting (a : Application) (e : Event) : Prop :=
  exists r, isInWhere a (typeOf r) = true
            /\ (e = getting r \/ e = Call r (Namespace a)).

Lemma getObjects_events (r : Resource) (st : State) :
  exists os evs,
    stateOf (getObjects r st)
    = {| app := stored os (app st); trace := (trace st ++ evs)%list |}
    /\ Forall (collecting (app st)) evs.
Proof.
  rewrite getObjects_run.
  destruct (isInWhere (app st) (typeOf r)) eqn:Hin.
  - assert (Hc : Forall (collecting (app st)) (calls (app st) r)).
    { unfold calls. rewrite Hin.
      repeat constructor; exists r; auto. }
    destruct (clientset (app st)) as [cs|].
    + destruct (ListResource cs r (Namespace (app st))) as [items|err].
      * exists (fetched (app st) r), (calls (app st) r). now split.
      * exists [], (calls (app st) r). rewrite stored_nil. now split.
    + exists [], [getting r]. rewrite stored_nil. split; [reflexivity|].
      repeat constructor. exists r. auto.
  - exists [], []. rewrite stored_nil, app_nil_r. split; [|constructor].
    now destruct st.
Qed.

Lemma collect_events (rs : list Resource) (st : State) :
  exists os evs,
    stateOf (forSearchFuncs (map getObjects rs) st)
    = {| app := stored os (app st); trace := (trace st ++ evs)%list |}
    /\ Forall (collecting (app st)) evs.
Proof.
  revert st. induction rs as [|r rs IH]; intros st.
  - exists [], []. rewrite stored_nil, app_nil_r. split; [|constructor].
    now destruct st.
  - cbn [map forSearchFuncs]. unfold bind.
    destruct (getObjects_events r st) as (os1 & evs1 & Hst & Hev).
    destruct (getObjects r st) as [[e|] st1|st1]; cbn [stateOf] in Hst.
    + exists os1, evs1. now split.
    + destruct (IH st1) as (os2 & evs2 & Hst2 & Hev2).
      rewrite Hst2, Hst. cbn [app trace].
      exists (os1 ++ os2)%list, (evs1 ++ evs2)%list.
      rewrite stored_stored, <- app_assoc. split; [reflexivity|].
      apply Forall_app. split; [assumption|].
      rewrite Hst in Hev2. exact Hev2.
    + exists os1, evs1. now split.
Qed.

Lemma search_events (st : State) :
  exists evs res,
    search st = outcomeOf res (logged st evs)
    /\ Forall (scanned (app st)) evs.
Proof.
  destruct (search_writes (app st)) as (evs & res & Hs & HP).
  exists evs, res. split; [now apply scans_run|assumption].
Qed.

(** A run writes the events of the collection, then those of the scan,
    and changes the application by appending to its store only. *)
Lemma Run_events (st : State) :
  exists os evs1 evs2,
    stateOf (Run st)
    = {| app := stored os (app st);
         trace := (trace st ++ evs1 ++ evs2)%list |}
    /\ Forall (collecting (app st)) evs1
    /\ Forall (scanned (stored os (app st))) evs2.
Proof.
  unfold Run, bind at 1. rewrite searchFuncs_order.
  destruct (collect_events order st) as (os & evs1 & Hst & Hev).
  destruct (forSearchFuncs (map getObjects order) st) as [[e|] st1|st1];
    cbn [stateOf] in Hst.
  - exists os, evs1, []. rewrite app_nil_r. unfold ret. cbn [stateOf].
    repeat split; [assumption..|constructor].
  - destruct (search_events st1) as (evs2 & res & Hs & Hev2).
    unfold bind. rewrite Hs.
    exists os, evs1, evs2. rewrite Hst in Hev2. cbn [app] in Hev2.
    split; [|now split].
    destruct res as [[]|]; unfold ret; cbn [outcomeOf stateOf];
      rewrite Hst; unfold logged; cbn [app trace]; now rewrite <- app_assoc.
  - exists os, evs1, []. rewrite app_nil_r. cbn [stateOf].
    repeat split; [assumption..|constructor].
Qed.

Lemma scanned_is_Log (a : Application) (e : Event) :
  scanned a e -> exists level attrs msg, e = Log level attrs msg.
Proof.
  intros (obj & _ & [[_ ->]|(_ & re & loc & text & _ & _ & _ & ->)]);
    unfold ignored, reported; eauto.
Qed.

End RunFacts.

(* ===================================================================== *)
(** ** The Resource Selector and the Collector *)
(* ===================================================================== *)

(** A match report: an informational record that carries the attributes
    of an object.  The "Getting ..." lines carry none. *)
Definition isReport (e : Event) : bool :=
  match e with
  | Log LevelInfo (_ :: _) _ => true
  | _ => false
  end.

Section Collector.
Context `{Unicode} `{RegexpEngine} `{Kubernetes}.

Lemma isInWhere_In (a : Application) (obj : string) :
  isInWhere a obj = true
  <-> In (ToLower obj) (Split (ToLower (WhereToSearch a)) ",").
Proof.
  unfold isInWhere, Contains. rewrite existsb_exists. split.
  - intros (x & Hin & Heq). apply String.eqb_eq in Heq. now subst.
  - intros Hin. exists (ToLower obj). split; [assumption|].
    apply String.eqb_refl.
Qed.

(** A scope that is the one token [*] selects none of the five kinds. *)
Lemma isInWhere_wildcard (a : Application) (r : Resource) :
  WhereToSearch a = "*" -> isInWhere a (typeOf r) = false.
Proof. unfold isInWhere. intros ->. destruct r; reflexivity. Qed.

Lemma typeOf_inj (r r' : Resource) : typeOf r = typeOf r' -> r = r'.
Proof. destruct r, r'; simpl; intros Heq; try reflexivity; discriminate. Qed.

Lemma getting_inj (r r' : Resource) : getting r = getting r' -> r = r'.
Proof. destruct r, r'; simpl; intros Heq; try reflexivity; discriminate. Qed.

Lemma NoDup_order : NoDup order.
Proof.
  unfold order. repeat constructor; simpl; intuition discriminate.
Qed.

Lemma calls_In (a : Application) (r : Resource) (e : Event) :
  In e (calls a r) -> e = getting r \/ e = Call r (Namespace a).
Proof.
  unfold calls. destruct (isInWhere a (typeOf r)); simpl; intuition auto.
Qed.

Lemma calls_concat_In (a : Application) (rs : list Resource) (e : Event) :
  In e (List.concat (map (calls a) rs)) ->
  exists r, In r rs /\ (e = getting r \/ e = Call r (Namespace a)).
Proof.
  rewrite in_concat. intros (evs & Hevs & He).
  apply in_map_iff in Hevs as (r & <- & Hr).
  exists r. split; [assumption|]. now apply calls_In.
Qed.

(** C1, at the scope [main] sets when the flag [-where] is not given.
    The claim makes every kind eligible under a scope that contains the
    wildcard token; [isInWhere] compares plain tokens, and under the
    default scope it answers false for each of the five kinds. *)
Theorem isInWhere_default_scope
        (KUBECONFIG : string)
        (kubeconfig find namespace except : option string) (r : Resource) :
  isInWhere (parsed KUBECONFIG {| arg_kubeconfig := kubeconfig;
                                  arg_where := None;
                                  arg_find := find;
                                  arg_namespace := namespace;
                                  arg_except := except |})
            (typeOf r) = false.
Proof. apply isInWhere_wildcard. reflexivity. Qed.

(** C8. The collection routine of a kind the selector deems out of
    scope is a no-op: it returns no error and leaves the state (store
    and trace) as it found it, so it neither logs nor calls the
    provider; and in a whole run no list call for that kind goes out. *)
Theorem getObjects_out_of_scope (r : Resource) (st : State) :
  isInWhere (app st) (typeOf r) = false ->
  getObjects r st = Returned None st
  /\ exists evs,
      trace (stateOf (Run st)) = (trace st ++ evs)%list
      /\ forall namespace, ~ In (Call r namespace) evs.
Proof.
  intros Hout. split.
  - rewrite getObjects_run. now rewrite Hout.
  - destruct (Run_events st) as (os & evs1 & evs2 & Hst & Hev1 & Hev2).
    exists (evs1 ++ evs2)%list. rewrite Hst. split; [reflexivity|].
    intros namespace Hin. apply in_app_or in Hin as [Hin|Hin].
    + rewrite Forall_forall in Hev1.
      destruct (Hev1 _ Hin) as (r' & Hr' & [Heq|Heq]); [discriminate|].
      injection Heq as <- _. congruence.
    + rewrite Forall_forall in Hev2.
      destruct (scanned_is_Log _ _ (Hev2 _ Hin)) as (l & at_ & m & Heq).
      discriminate.
Qed.

(** C3. When the list call of a kind in scope returns an error, the
    calls before it having succeeded, the run returns that error
    wrapped with the name of the kind; the trace holds the events of
    the collection up to that call and nothing else: no routine of a
    later kind has logged or called, and there is no match report.
    What was collected before stays in the store. *)
Theorem Run_provider_error
        (st : State) (cs : Clientset) (r : Resource) (e : error)
        (before after : list Resource) :
  order = (before ++ r :: after)%list ->
  clientset (app st) = Some cs ->
  (forall r', In r' before -> isInWhere (app st) (typeOf r') = true ->
              exists items,
                ListResource cs r' (Namespace (app st)) = inl items) ->
  isInWhere (app st) (typeOf r) = true ->
  ListResource cs r (Namespace (app st)) = inr e ->
  exists st' evs,
    Run st = Returned (Some (Wrap e ("error in " ++ typeOf r))) st'
    /\ trace st' = (trace st ++ evs)%list
    /\ evs = (List.concat (map (calls (app st)) before)
              ++ [getting r; Call r (Namespace (app st))])%list
    /\ (forall r' e', In r' after -> In e' evs ->
                      e' <> getting r'
                      /\ forall namespace, e' <> Call r' namespace)
    /\ (forall e', In e' evs -> isReport e' = false)
    /\ KubernetesObjects (app st')
       = (KubernetesObjects (app st)
          ++ List.concat (map (fetched (app st)) before))%list.
Proof.
  intros Horder Hcs Hok Hin Herr.
  eexists. exists (List.concat (map (calls (app st)) before)
                   ++ [getting r; Call r (Namespace (app st))])%list.
  split; [|split; [|split; [reflexivity|split; [|split]]]].
  - unfold Run, bind at 1. rewrite searchFuncs_order, Horder, map_app.
    rewrite forSearchFuncs_app, (collect_succeeds before st cs Hcs Hok).
    cbn [map forSearchFuncs]. unfold bind at 1. rewrite getObjects_run.
    cbn [app trace].
    change (isInWhere (stored _ (app st)) (typeOf r))
      with (isInWhere (app st) (typeOf r)).
    change (clientset (stored _ (app st))) with (clientset (app st)).
    change (Namespace (stored _ (app st))) with (Namespace (app st)).
    rewrite Hin, Hcs, Herr. unfold ret. reflexivity.
  - unfold logged. cbn [app trace]. unfold calls at 2.
    change (isInWhere (stored _ (app st)) (typeOf r))
      with (isInWhere (app st) (typeOf r)).
    rewrite Hin. now rewrite <- app_assoc.
  - intros r' e' Hr' He'.
    assert (Hnd : forall r0, In r0 (before ++ [r])%list -> r0 <> r').
    { intros r0 Hr0 ->. pose proof NoDup_order as Hnd.
      rewrite Horder in Hnd.
      replace (before ++ r :: after)%list
        with ((before ++ [r]) ++ after)%list in Hnd
        by now rewrite <- app_assoc.
      revert Hr0 Hr' Hnd. generalize (before ++ [r])%list. intros l Hl Ha.
      induction l as [|x l IH]; [contradiction|].
      simpl. intros Hnd. inversion Hnd as [|? ? Hx Hnd']; subst.
      destruct Hl as [->|Hl]; [|now apply IH].
      apply Hx. apply in_or_app. now right. }
    assert (Hfrom : exists r0, In r0 (before ++ [r])%list
                               /\ (e' = getting r0
                                   \/ e' = Call r0 (Namespace (app st)))).
    { apply in_app_or in He' as [He'|He'].
      - apply calls_concat_In in He' as (r0 & Hr0 & Heq).
        exists r0. split; [apply in_or_app; now left|assumption].
      - exists r. split; [apply in_or_app; right; now left|].
        simpl in He'. intuition auto. }
    destruct Hfrom as (r0 & Hr0 & Heq). specialize (Hnd r0 Hr0).
    split.
    + intros ->. destruct Heq as [Heq|Heq]; [|discriminate].
      apply Hnd. symmetry. now apply getting_inj.
    + intros namespace ->. destruct Heq as [Heq|Heq]; [discriminate|].
      injection Heq as -> _. now apply Hnd.
  - intros e' He'. apply in_app_or in He' as [He'|He'].
    + apply calls_concat_In in He' as (r0 & _ & [->| ->]); reflexivity.
    + simpl in He'. destruct He' as [<-|[<-|[]]]; reflexivity.
  - reflexivity.
Qed.

End Collector.

(* ===================================================================== *)
(** ** The Object Store and the Matcher/Reporter *)
(* ===================================================================== *)

Section Reporter.
Context `{Unicode} `{RegexpEngine} `{Kubernetes}.

Lemma logged_nil (st : State) : logged st [] = st.
Proof. destruct st. unfold logged. simpl. now rewrite app_nil_r. Qed.

Lemma logged_logged (st : State) (evs1 evs2 : list Event) :
  logged (logged st evs1) evs2 = logged st (evs1 ++ evs2).
Proof. unfold logged. simpl. now rewrite app_assoc. Qed.

(** The first match delivered is the engine's match of the whole text. *)
Lemma FindAllStringIndex_first (re : Regexp) (s : string) :
  hd_error (FindAllStringIndex re s (-1)) = doExecute re s 0.
Proof.
  pose proof (FindAllStringIndex_run re s (-1)) as Hrun.
  pose proof (len_nonneg s) as Hlen.
  change (-1 <? 0) with true in Hrun. cbv iota in Hrun.
  rewrite allMatches_S in Hrun.
  replace ((0 <? len s + 1) && (0 <=? len s)) with true in Hrun
    by (symmetry; apply andb_true_iff; split;
        [apply Z.ltb_lt|apply Z.leb_le]; lia).
  destruct (doExecute re s 0) as [[m0 m1]|] eqn:Hexec.
  - destruct (doExecute_bounds re s 0 m0 m1 ltac:(lia) Hexec) as (H0' & _).
    replace (m0 =? -1) with false in Hrun by (symmetry; apply Z.eqb_neq; lia).
    cbv zeta in Hrun. rewrite andb_false_r in Hrun. cbn [negb] in Hrun.
    match type of Hrun with
    | context [allMatches ?f re s ?k ?p ?j m1] =>
        destruct (allMatches f re s k p j m1); [|discriminate]
    end.
    injection Hrun as <-. reflexivity.
  - injection Hrun as <-. reflexivity.
Qed.

Lemma searchObject_run (obj : KubernetesObject.t) (st : State) :
  searchObject obj st =
  if excluded (app st) obj then Returned tt (logged st [ignored obj])
  else match whatToSearchRe (app st) with
       | None => Panicked st
       | Some re =>
           forRange (FindAllStringIndex
                       re (ToLower (KubernetesObject.Object obj)) (-1))
                    (report obj) st
       end.
Proof.
  unfold searchObject, bind at 1, this at 1. fold (excluded (app st) obj).
  destruct (excluded (app st) obj); [reflexivity|].
  destruct (whatToSearchRe (app st)) as [re|]; [|reflexivity].
  unfold bind, deref, ret. cbv zeta.
  destruct (FindAllStringIndex _ _ _); reflexivity.
Qed.

(** When every slice is in bounds the loop over the matches returns,
    and it has written one record per match, in order. *)
Lemma forRange_report (obj : KubernetesObject.t) (a : Application)
      (locs : list (Z * Z)) (texts : list string) :
  Forall2 (fun loc text => snippet a obj loc = Some text) locs texts ->
  forall st, app st = a ->
  forRange locs (report obj) st
  = Returned tt (logged st (map (reported obj) texts)).
Proof.
  induction 1 as [|loc text locs texts Hs Hall IH]; intros st Ha.
  - simpl. unfold ret. now rewrite logged_nil.
  - cbn [forRange map]. unfold bind. rewrite report_run, Ha, Hs.
    rewrite IH by exact Ha. now rewrite logged_logged.
Qed.

(** Conversely, a loop that returns has written one record per match. *)
Lemma forRange_report_returned (obj : KubernetesObject.t)
      (locs : list (Z * Z)) (st st' : State) :
  forRange locs (report obj) st = Returned tt st' ->
  exists texts,
    Forall2 (fun loc text => snippet (app st) obj loc = Some text) locs texts
    /\ st' = logged st (map (reported obj) texts).
Proof.
  revert st. induction locs as [|loc locs IH]; intros st.
  - simpl. unfold ret. intros [= <-]. exists []. split; [constructor|].
    now rewrite logged_nil.
  - cbn [forRange]. unfold bind. rewrite report_run.
    destruct (snippet (app st) obj loc) as [text|] eqn:Hs; [|discriminate].
    intros Hrest. apply IH in Hrest as (texts & Hall & ->).
    exists (text :: texts). split; [constructor; assumption|].
    now rewrite logged_logged.
Qed.

(** A collection that returns no error has listed every resource in
    scope with success. *)
Lemma collect_returned_listed (rs : list Resource) (st st' : State) (r : Resource) :
  forSearchFuncs (map getObjects rs) st = Returned None st' ->
  In r rs -> isInWhere (app st) (typeOf r) = true ->
  exists cs items,
    clientset (app st) = Some cs
    /\ ListResource cs r (Namespace (app st)) = inl items
    /\ fetched (app st) r = map (toObject r) items.
Proof.
  revert st. induction rs as [|r0 rs IH]; intros st Hrun Hr Hin;
    [contradiction|].
  cbn [map forSearchFuncs] in Hrun. unfold bind in Hrun.
  rewrite getObjects_run in Hrun.
  destruct Hr as [->|Hr].
  - rewrite Hin in Hrun.
    destruct (clientset (app st)) as [cs|] eqn:Hcs; [|discriminate].
    destruct (ListResource cs r (Namespace (app st))) as [items|err] eqn:Hl;
      [|discriminate].
    exists cs, items. unfold fetched. now rewrite Hin, Hcs, Hl.
  - destruct (isInWhere (app st) (typeOf r0)).
    + destruct (clientset (app st)) as [cs|] eqn:Hcs; [|discriminate].
      destruct (ListResource cs r0 (Namespace (app st))) as [items|err];
        [|discriminate].
      destruct (IH _ Hrun Hr Hin) as (cs' & items' & Hcs' & Hl' & Hf').
      cbn [app] in Hcs', Hl', Hf'. rewrite fetched_stored in Hf'.
      cbn [stored clientset Namespace] in Hcs', Hl'.
      exists cs', items'. repeat split; congruence.
    + exact (IH _ Hrun Hr Hin).
Qed.

Lemma In_order (r : Resource) : In r order.
Proof. destruct r; simpl; auto 6. Qed.

(** C6. After a collection that returned no error the store is what it
    was before, followed by the objects of Pods, then ConfigMaps,
    Deployments, StatefulSets and CronJobs, those of each kind in scope
    being the items the provider returned, converted in the order it
    returned them.  The store grows by appending only: after the first [k]
    routines it is the initial store followed by the objects of the first
    [k] kinds, and the scan leaves it as it is. *)
Theorem store_kind_major (st st1 : State) :
  forSearchFuncs searchFuncs st = Returned None st1 ->
  KubernetesObjects (app st1)
  = (KubernetesObjects (app st)
     ++ List.concat (map (fetched (app st)) order))%list
  /\ (forall r, isInWhere (app st) (typeOf r) = true ->
                exists cs items,
                  clientset (app st) = Some cs
                  /\ ListResource cs r (Namespace (app st)) = inl items
                  /\ fetched (app st) r = map (toObject r) items)
  /\ (forall r, isInWhere (app st) (typeOf r) = false ->
                fetched (app st) r = [])
  /\ (forall k, exists stk,
         forSearchFuncs (firstn k searchFuncs) st = Returned None stk
         /\ KubernetesObjects (app stk)
            = (KubernetesObjects (app st)
               ++ List.concat (map (fetched (app st)) (firstn k order)))%list)
  /\ KubernetesObjects (app (stateOf (search st1)))
     = KubernetesObjects (app st1).
Proof.
  intros Hrun. rewrite searchFuncs_order in *.
  split; [|split; [|split; [|split]]].
  - apply collect_returned in Hrun as [-> _]. reflexivity.
  - intros r Hin.
    exact (collect_returned_listed order st st1 r Hrun (In_order r) Hin).
  - intros r Hout. unfold fetched. now rewrite Hout.
  - intros k. rewrite <- (firstn_skipn k order) in Hrun at 1.
    rewrite map_app, forSearchFuncs_app in Hrun.
    rewrite firstn_map.
    destruct (forSearchFuncs (map getObjects (firstn k order)) st)
      as [[e|] stk|stk] eqn:Hk; try discriminate.
    exists stk. split; [reflexivity|].
    apply collect_returned in Hk as [-> _]. reflexivity.
  - destruct (search_events st1) as (evs & res & -> & _).
    now destruct res.
Qed.

(** C4. For a match at the positions [s <= e] within a text of length
    [L] and a radius [r >= 0] (with [L + r] an [int]), the record written
    is the informational record that carries the attributes of the object
    and, as its message, the bytes of the original text at the positions
    from [max 0 (s - r)] up to [min L (e + r)], every newline replaced by
    one space. *)
Theorem report_window (st : State) (obj : KubernetesObject.t) (s e : Z) :
  let text := KubernetesObject.Object obj in
  let r := ShowTails (app st) in
  let L := len text in
  0 <= s -> s <= e -> e <= L -> 0 <= r -> L + r <= GoInt.maxInt ->
  report obj (s, e) st
  = Returned tt
      (logged st
         [Log LevelInfo
              [("kind", KubernetesObject.Kind obj);
               ("name", KubernetesObject.Name obj);
               ("namespace", KubernetesObject.Namespace obj)]
              (newlinesToSpaces
                 (window text (Z.max 0 (s - r)) (Z.min L (e + r))))]).
Proof.
  intros text r L Hs Hse HeL Hr Hmax. subst text r L.
  pose proof (snippet_window (app st) obj s e) as Hw. cbv zeta in Hw.
  rewrite report_run, Hw by lia.
  reflexivity.
Qed.

(** C2. When lower-casing keeps the length of the text of an object (and
    the radius is not negative, with [len + radius] an [int]), every match
    found on the lower-cased text gives a window that is in bounds of the
    original text, [0 <= start <= end <= len], the slice expression
    evaluates, and the loop body of [search] returns for the object
    without a panic. *)
Theorem window_in_bounds (st : State) (obj : KubernetesObject.t) (re : Regexp) :
  let text := KubernetesObject.Object obj in
  let r := ShowTails (app st) in
  let L := len text in
  whatToSearchRe (app st) = Some re ->
  len (ToLower text) = L ->
  0 <= r -> L + r <= GoInt.maxInt ->
  (forall s e,
      In (s, e) (FindAllStringIndex re (ToLower text) (-1)) ->
      let start := Z.max 0 (s - r) in
      let end_ := Z.min L (e + r) in
      0 <= start /\ start <= end_ /\ end_ <= L
      /\ slice text start end_ = Some (window text start end_)
      /\ snippet (app st) obj (s, e)
         = Some (newlinesToSpaces (window text start end_)))
  /\ exists st', searchObject obj st = Returned tt st'.
Proof.
  intros text r L Hre Hlen Hr Hmax.
  assert (Hsn : forall s e,
             0 <= s -> s <= e -> e <= L ->
             snippet (app st) obj (s, e)
             = Some (newlinesToSpaces
                       (window text (Z.max 0 (s - r)) (Z.min L (e + r))))).
  { intros s e Hs Hse HeL.
    pose proof (snippet_window (app st) obj s e) as Hw. cbv zeta in Hw.
    subst text r L. apply Hw; lia. }
  assert (Hwin : forall s e,
             In (s, e) (FindAllStringIndex re (ToLower text) (-1)) ->
             0 <= s /\ s <= e /\ e <= L).
  { intros s e Hin. apply FindAllStringIndex_bounds in Hin. lia. }
  split.
  - intros s e Hin start end_. destruct (Hwin s e Hin) as (Hs & Hse & HeL).
    assert (HL : 0 <= L) by apply len_nonneg.
    repeat split; try (unfold start, end_; lia).
    + unfold slice. fold L.
      replace ((0 <=? start) && (start <=? end_) && (end_ <=? L)) with true;
        [reflexivity|].
      symmetry. rewrite !andb_true_iff, !Z.leb_le. unfold start, end_. lia.
    + now apply Hsn.
  - rewrite searchObject_run.
    destruct (excluded (app st) obj); [eauto|]. rewrite Hre.
    assert (Hall : exists texts,
               Forall2 (fun loc t => snippet (app st) obj loc = Some t)
                       (FindAllStringIndex re (ToLower text) (-1)) texts).
    { revert Hwin. generalize (FindAllStringIndex re (ToLower text) (-1)).
      induction l as [|[s e] l IH]; intros Hwin.
      - exists []. constructor.
      - destruct IH as [texts Hall];
          [intros s' e' Hin; apply Hwin; now right|].
        destruct (Hwin s e (or_introl eq_refl)) as (Hs & Hse & HeL).
        eexists (_ :: texts). constructor; [|exact Hall].
        now apply Hsn. }
    destruct Hall as [texts Hall]. subst text.
    rewrite (forRange_report obj (app st) _ texts Hall st eq_refl). eauto.
Qed.

(** C5. An object whose key "<namespace>/<name>" the exclude expression
    matches gets the debug record "ignored" and nothing else, whatever the
    search expression is and whatever it would match; and no record a
    whole scan writes is a match report for that object. *)
Theorem excluded_object_ignored
        (st : State) (obj : KubernetesObject.t) (re : Regexp) :
  exceptRe (app st) = Some re ->
  MatchString re (KubernetesObject.Namespace obj ++ "/"
                  ++ KubernetesObject.Name obj) = true ->
  searchObject obj st
  = Returned tt
      (logged st
         [Log LevelDebug
              [("kind", KubernetesObject.Kind obj);
               ("name", KubernetesObject.Name obj);
               ("namespace", KubernetesObject.Namespace obj)]
              "ignored"])
  /\ exists evs res,
      search st = outcomeOf res (logged st evs)
      /\ forall msg, ~ In (Log LevelInfo (attrsOf obj) msg) evs.
Proof.
  intros Hre Hmatch.
  assert (Hex : excluded (app st) obj = true)
    by (unfold excluded; now rewrite Hre).
  split.
  - rewrite searchObject_run, Hex. reflexivity.
  - destruct (search_events st) as (evs & res & Hrun & Hev).
    exists evs, res. split; [exact Hrun|].
    intros msg Hin. rewrite Forall_forall in Hev.
    destruct (Hev _ Hin) as (obj' & _ & [[_ Heq]|(Hex' & _ & _ & text & _ & _ & _ & Heq)]).
    + discriminate.
    + unfold reported, attrsOf in Heq. injection Heq as _ Hname Hns _.
      unfold excluded in Hex, Hex'. rewrite Hre in Hex, Hex'.
      rewrite <- Hname, <- Hns in Hex'. congruence.
Qed.

(** C7. For an object that is not excluded, the matches searched on the
    lower-cased text are those of [FindAllStringIndex] with no limit, and
    that list is the left-to-right list of the non-overlapping occurrences
    of the expression in the text ([occurrences]), which is determined by
    the text: nothing is skipped and nothing is added.  Each match is one
    the engine found, the first is the engine's first match of the text,
    and they come left to right without overlap.  With no match the loop
    body returns and the state (trace included) is as before; and
    whenever it returns it has written exactly one record per occurrence,
    in the order of the occurrences. *)
Theorem matches_left_to_right
        (st : State) (obj : KubernetesObject.t) (re : Regexp) :
  let lower := ToLower (KubernetesObject.Object obj) in
  let locs := FindAllStringIndex re lower (-1) in
  excluded (app st) obj = false ->
  whatToSearchRe (app st) = Some re ->
  successive 0 locs (len lower)
  /\ (forall loc, In loc locs ->
                  exists p, 0 <= p <= len lower /\ doExecute re lower p = Some loc)
  /\ hd_error locs = doExecute re lower 0
  /\ occurrences re lower 0 (-1) locs
  /\ (forall expected, occurrences re lower 0 (-1) expected -> expected = locs)
  /\ (locs = [] -> searchObject obj st = Returned tt st)
  /\ (forall st',
         searchObject obj st = Returned tt st' ->
         exists texts,
           Forall2 (fun loc text => snippet (app st) obj loc = Some text)
                   locs texts
           /\ st' = logged st (map (fun text => Log LevelInfo (attrsOf obj) text)
                                   texts))
  /\ (forall expected st',
         occurrences re lower 0 (-1) expected ->
         searchObject obj st = Returned tt st' ->
         exists texts,
           Forall2 (fun loc text => snippet (app st) obj loc = Some text)
                   expected texts
           /\ List.length texts = List.length expected
           /\ st' = logged st (map (fun text => Log LevelInfo (attrsOf obj) text)
                                   texts)).
Proof.
  intros lower locs Hex Hre.
  assert (Hunique : forall expected,
             occurrences re lower 0 (-1) expected -> expected = locs).
  { intros expected Hexp.
    exact (occurrences_unique re lower 0 (-1) expected locs Hexp
                              (FindAllStringIndex_occurrences re lower)). }
  split; [apply FindAllStringIndex_successive|].
  split; [intros loc; apply FindAllStringIndex_found|].
  split; [apply FindAllStringIndex_first|].
  split; [apply FindAllStringIndex_occurrences|].
  split; [exact Hunique|].
  rewrite searchObject_run, Hex, Hre. fold lower. fold locs.
  split; [intros ->; reflexivity|].
  split; [intros st' Hrun; now apply forRange_report_returned|].
  intros expected st' Hexp Hrun. rewrite (Hunique expected Hexp).
  apply forRange_report_returned in Hrun as (texts & Hall & ->).
  exists texts. split; [exact Hall|]. split; [|reflexivity].
  symmetry. exact (Forall2_length Hall).
Qed.

(** C9. A scan leaves the application (store and configuration) as it
    found it, and what it writes and how it ends depend on the application
    only: a second scan, run on the state the first one left, writes the
    same records in the same order and ends the same way. *)
Theorem search_twice (st : State) :
  exists evs res,
    search st = outcomeOf res (logged st evs)
    /\ search (logged st evs) = outcomeOf res (logged (logged st evs) evs)
    /\ app (logged st evs) = app st.
Proof.
  destruct (search_writes (app st)) as (evs & res & Hs & _).
  exists evs, res. split; [|split].
  - now apply scans_run.
  - now apply scans_run.
  - reflexivity.
Qed.






End Reporter.

(* ===================================================================== *)
(** ** Validation and initialisation *)
(* ===================================================================== *)

Section Startup.
Context `{Unicode} `{RegexpEngine} `{Kubernetes}.

(** [Validate] accepts an application exactly when the credentials path,
    the scope and the search expression are all given. *)
Lemma Validate_None_iff (a : Application) :
  Validate a = None
  <-> Kubeconfig a <> "" /\ WhereToSearch a <> "" /\ WhatToSearch a <> "".
Proof.
  unfold Validate.
  destruct (String.eqb_spec (Kubeconfig a) "") as [Hk|Hk];
    [split; [discriminate|tauto]|].
  destruct (String.eqb_spec (WhereToSearch a) "") as [Hw|Hw];
    [split; [discriminate|tauto]|].
  destruct (String.eqb_spec (WhatToSearch a) "") as [Hf|Hf];
    [split; [discriminate|tauto]|].
  split; [auto|reflexivity].
Qed.

(** When a required setting is missing, [main] ends with the error of
    [Validate] before anything else happens: nothing is written to the
    trace, no expression is compiled and no client is built. *)
Theorem main_rejects_missing_setting
        (KUBECONFIG : string) (args : Args) (st : State) :
  StringVar (arg_kubeconfig args) KUBECONFIG = ""
  \/ arg_where args = Some ""
  \/ StringVar (arg_find args) "" = "" ->
  exists msg,
    main KUBECONFIG args st
    = Returned (Some (errorString msg))
               {| app := parsed KUBECONFIG args; trace := trace st |}
    /\ whatToSearchRe (parsed KUBECONFIG args) = None
    /\ clientset (parsed KUBECONFIG args) = None.
Proof.
  intros Hmiss. unfold main, bind, assign, this. cbn [app trace].
  assert (Hbad : Validate (parsed KUBECONFIG args) <> None).
  { rewrite Validate_None_iff. cbn [parsed Kubeconfig WhereToSearch WhatToSearch].
    intros (Hk & Hw & Hf). destruct Hmiss as [Hm|[Hm|Hm]]; try contradiction.
    rewrite Hm in Hw. now apply Hw. }
  unfold Validate in *.
  destruct (Kubeconfig (parsed KUBECONFIG args) =? "")%string;
    [eexists; repeat split|].
  destruct (WhereToSearch (parsed KUBECONFIG args) =? "")%string;
    [eexists; repeat split|].
  destruct (WhatToSearch (parsed KUBECONFIG args) =? "")%string;
    [eexists; repeat split|].
  now contradiction Hbad.
Qed.

(** [Init] never panics, writes nothing to the trace and leaves the store
    and every setting the user gave as they are. *)
Theorem Init_returns (st : State) :
  exists res a',
    Init st = Returned res {| app := a'; trace := trace st |}
    /\ KubernetesObjects a' = KubernetesObjects (app st)
    /\ Kubeconfig a' = Kubeconfig (app st)
    /\ WhereToSearch a' = WhereToSearch (app st)
    /\ WhatToSearch a' = WhatToSearch (app st)
    /\ Namespace a' = Namespace (app st)
    /\ Except a' = Except (app st)
    /\ ShowTails a' = ShowTails (app st).
Proof.
  unfold Init, bind at 1, this at 1.
  destruct (Compile (WhatToSearch (app st))) as [re|err].
  2:{ exists (Some (Wrap err ("error in regexp.Compile " ++ WhatToSearch (app st)))),
             (app st).
      unfold ret. destruct st. repeat split. }
  unfold bind at 1.
  destruct (negb (Except (app st) =? "")%string).
  - destruct (Compile (Except (app st))) as [ex|err].
    2:{ eexists _, (app st). unfold ret. destruct st. repeat split. }
    unfold bind at 1, assign at 1, ret at 1.
    destruct (BuildConfigFromFlags "" (Kubeconfig (app st))) as [rc|err];
      [|eexists _, _; unfold ret; repeat split].
    destruct (NewForConfig rc) as [cs|err];
      [|eexists _, _; unfold ret; repeat split].
    eexists _, _. unfold bind, assign, ret. cbn [app trace]. repeat split.
  - unfold ret at 1.
    destruct (BuildConfigFromFlags "" (Kubeconfig (app st))) as [rc|err];
      [|eexists _, (app st); unfold ret; destruct st; repeat split].
    destruct (NewForConfig rc) as [cs|err];
      [|eexists _, (app st); unfold ret; destruct st; repeat split].
    eexists _, _. unfold bind, assign, ret. cbn [app trace]. repeat split.
Qed.

(** [Init] succeeds exactly when the search expression compiles, the
    exclude expression (if one is given) compiles, and the client can be
    built from the credentials path.  It then holds the compiled search
    expression and the client; the exclude expression is the compiled one
    when one is given, and is left as it was when none is. *)
Theorem Init_succeeds_iff (st st' : State) :
  Init st = Returned None st'
  <-> exists re rc cs,
      Compile (WhatToSearch (app st)) = inl re
      /\ BuildConfigFromFlags "" (Kubeconfig (app st)) = inl rc
      /\ NewForConfig rc = inl cs
      /\ trace st' = trace st
      /\ ((Except (app st) = ""
           /\ app st' = set_clientset cs (set_whatToSearchRe re (app st)))
          \/ (Except (app st) <> ""
              /\ exists ex,
                  Compile (Except (app st)) = inl ex
                  /\ app st' = set_clientset
                                 cs (set_whatToSearchRe
                                       re (set_exceptRe ex (app st))))).
Proof.
  unfold Init, bind at 1, this at 1.
  destruct (Compile (WhatToSearch (app st))) as [re|err] eqn:Hre.
  2:{ split; [discriminate|]. intros (re & rc & cs & Hc & _). discriminate. }
  unfold bind at 1.
  destruct (String.eqb_spec (Except (app st)) "") as [He|He]; cbn [negb].
  - unfold ret at 1.
    destruct (BuildConfigFromFlags "" (Kubeconfig (app st))) as [rc|err]
      eqn:Hrc.
    2:{ split; [discriminate|]. intros (? & ? & ? & _ & Hb & _). discriminate. }
    destruct (NewForConfig rc) as [cs|err] eqn:Hcs.
    2:{ split; [discriminate|].
        intros (? & rc' & ? & _ & Hb & Hn & _). congruence. }
    unfold bind, assign, ret. cbn [app trace]. split.
    + intros [= <-]. exists re, rc, cs.
      repeat (split; [assumption || reflexivity|]). left. now split.
    + intros (re' & rc' & cs' & Hre' & Hrc' & Hcs' & Htr & [[_ Happ]|[Hne _]]);
        [|contradiction].
      assert (re' = re) by congruence. assert (rc' = rc) by congruence.
      subst. assert (cs' = cs) by congruence. subst.
      destruct st'. cbn [app trace] in *. now subst.
  - destruct (Compile (Except (app st))) as [ex|err] eqn:Hex.
    2:{ split; [discriminate|].
        intros (? & ? & ? & _ & _ & _ & _ & [[He' _]|(_ & ? & Hc & _)]);
          [contradiction|discriminate]. }
    unfold bind at 1, assign at 1, ret at 1.
    destruct (BuildConfigFromFlags "" (Kubeconfig (app st))) as [rc|err]
      eqn:Hrc.
    2:{ split; [discriminate|]. intros (? & ? & ? & _ & Hb & _). discriminate. }
    destruct (NewForConfig rc) as [cs|err] eqn:Hcs.
    2:{ split; [discriminate|].
        intros (? & rc' & ? & _ & Hb & Hn & _). congruence. }
    unfold bind, assign, ret. cbn [app trace]. split.
    + intros [= <-]. exists re, rc, cs.
      repeat (split; [assumption || reflexivity|]). right.
      split; [assumption|]. exists ex. now split.
    + intros (re' & rc' & cs' & Hre' & Hrc' & Hcs' & Htr
              & [[He' _]|(_ & ex' & Hex' & Happ)]);
        [contradiction|].
      assert (re' = re) by congruence. assert (rc' = rc) by congruence.
      assert (ex' = ex) by congruence.
      subst. assert (cs' = cs) by congruence. subst.
      destruct st'. cbn [app trace] in *. now subst.
Qed.

(** A failed [Init] hands back a wrapped error and leaves neither a
    search expression nor a client behind that was not there before; only
    the exclude expression may already have been replaced, when it
    compiled and the client could not be built. *)
Theorem Init_failure_state (st st' : State) (err : error) :
  Init st = Returned (Some err) st' ->
  (exists cause msg, err = Wrap cause msg)
  /\ trace st' = trace st
  /\ whatToSearchRe (app st') = whatToSearchRe (app st)
  /\ clientset (app st') = clientset (app st)
  /\ (exceptRe (app st') = exceptRe (app st)
      \/ (Except (app st) <> ""
          /\ exists ex, Compile (Except (app st)) = inl ex
                        /\ exceptRe (app st') = Some ex)).
Proof.
  unfold Init, bind at 1, this at 1.
  destruct (Compile (WhatToSearch (app st))) as [re|e0].
  2:{ unfold ret. intros [= <- <-]. repeat split; eauto. }
  unfold bind at 1.
  destruct (String.eqb_spec (Except (app st)) "") as [He|He]; cbn [negb].
  - unfold ret at 1.
    destruct (BuildConfigFromFlags "" (Kubeconfig (app st))) as [rc|e1].
    2:{ unfold ret. intros [= <- <-]. repeat split; eauto. }
    destruct (NewForConfig rc) as [cs|e2].
    2:{ unfold ret. intros [= <- <-]. repeat split; eauto. }
    unfold bind, assign, ret. discriminate.
  - destruct (Compile (Except (app st))) as [ex|e1] eqn:Hex.
    2:{ unfold ret. intros [= <- <-]. repeat split; eauto. }
    unfold bind at 1, assign at 1, ret at 1.
    destruct (BuildConfigFromFlags "" (Kubeconfig (app st))) as [rc|e2].
    2:{ unfold ret. intros [= <- <-]. cbn [app trace].
        repeat split; eauto. }
    destruct (NewForConfig rc) as [cs|e3].
    2:{ unfold ret. intros [= <- <-]. cbn [app trace].
        repeat split; eauto. }
    unfold bind, assign, ret. discriminate.
Qed.

(** [Init] ends by returning; when it returns no error the client it
    built and the compiled search expression are in place, and the store,
    the radius and the namespace are as before. *)
Lemma Init_outcome (st : State) :
  exists res st',
    Init st = Returned res st'
    /\ (res = None ->
        exists re rc cs,
          BuildConfigFromFlags "" (Kubeconfig (app st)) = inl rc
          /\ NewForConfig rc = inl cs
          /\ clientset (app st') = Some cs
          /\ whatToSearchRe (app st') = Some re
          /\ ShowTails (app st') = ShowTails (app st)
          /\ KubernetesObjects (app st') = KubernetesObjects (app st)
          /\ Namespace (app st') = Namespace (app st)).
Proof.
  unfold Init, bind at 1, this at 1.
  destruct (Compile (WhatToSearch (app st))) as [re|err];
    [|unfold ret; eexists _, _; split; [reflexivity|discriminate]].
  unfold bind at 1.
  destruct (negb (Except (app st) =? "")%string).
  - destruct (Compile (Except (app st))) as [ex|err];
      [|unfold ret; eexists _, _; split; [reflexivity|discriminate]].
    unfold bind at 1, assign at 1, ret at 1.
    destruct (BuildConfigFromFlags "" (Kubeconfig (app st))) as [rc|err]
      eqn:Hrc;
      [|unfold ret; eexists _, _; split; [reflexivity|discriminate]].
    destruct (NewForConfig rc) as [cs|err] eqn:Hcs;
      [|unfold ret; eexists _, _; split; [reflexivity|discriminate]].
    unfold bind, assign, ret. cbn [app trace].
    eexists _, _. split; [reflexivity|]. intros _.
    exists re, rc, cs. repeat split. exact Hcs.
  - unfold ret at 1.
    destruct (BuildConfigFromFlags "" (Kubeconfig (app st))) as [rc|err]
      eqn:Hrc;
      [|unfold ret; eexists _, _; split; [reflexivity|discriminate]].
    destruct (NewForConfig rc) as [cs|err] eqn:Hcs;
      [|unfold ret; eexists _, _; split; [reflexivity|discriminate]].
    unfold bind, assign, ret. cbn [app trace].
    eexists _, _. split; [reflexivity|]. intros _.
    exists re, rc, cs. repeat split. exact Hcs.
Qed.

End Startup.

(* ===================================================================== *)
(** ** The tokens of a scope *)
(* ===================================================================== *)

(** [headToken t s]: [s] begins with [t], and [t] is followed there by a
    comma or by the end of [s]. *)
Definition headToken (t s : string) : Prop :=
  exists post, s = t ++ post /\ (post = "" \/ exists q, post = "," ++ q).

(** [isToken t s]: [t] stands in [s] between two boundaries, each the
    end of [s] or a comma. *)
Definition isToken (t s : string) : Prop :=
  headToken t s \/ exists p s', s = p ++ "," ++ s' /\ headToken t s'.

Definition noComma (t : string) : bool := negb (anyByte (Ascii.eqb ",") t).

Lemma noComma_cons (d : ascii) (t : string) :
  noComma (String d t) = true -> noComma t = true.
Proof.
  unfold noComma. simpl. intros Hno.
  apply negb_true_iff in Hno. apply orb_false_iff in Hno as [_ Hno].
  now rewrite Hno.
Qed.

Lemma genSplit_comma_cons (d : ascii) (s : string) :
  genSplit "," 0 (String d s) =
  if Ascii.eqb d ","
  then (EmptyString, let (t, r) := genSplit "," 0 s in t :: r)
  else let (t, r) := genSplit "," 0 s in (String d t, r).
Proof.
  cbn [genSplit prefix String.length Nat.sub].
  destruct (Ascii.eqb_spec d ",") as [->|Hne].
  - destruct (ascii_dec "," ","); [|congruence]. now destruct s.
  - destruct (ascii_dec "," d); [congruence|reflexivity].
Qed.

Lemma headToken_nil (t : string) : headToken t "" <-> t = "".
Proof.
  split.
  - intros (post & Heq & _). destruct t; [reflexivity|discriminate].
  - intros ->. exists "". split; [reflexivity|now left].
Qed.

Lemma headToken_comma (t s : string) :
  noComma t = true -> (headToken t ("," ++ s) <-> t = "").
Proof.
  intros Hno. split.
  - intros (post & Heq & _). destruct t as [|c t]; [reflexivity|].
    simpl in Heq. injection Heq as <- _.
    unfold noComma in Hno. simpl in Hno. discriminate.
  - intros ->. exists ("," ++ s). split; [reflexivity|]. right. now exists s.
Qed.

Lemma headToken_other (d : ascii) (t s : string) :
  d <> ","%char ->
  (headToken t (String d s) <-> exists t', t = String d t' /\ headToken t' s).
Proof.
  intros Hd. split.
  - intros (post & Heq & Hpost). destruct t as [|c t].
    + simpl in Heq. subst post. destruct Hpost as [Hp|(q & Hp)];
        [discriminate|]. simpl in Hp. injection Hp as -> _. congruence.
    + simpl in Heq. injection Heq as <- ->. exists t. split; [reflexivity|].
      now exists post.
  - intros (t' & -> & post & -> & Hpost). now exists post.
Qed.

Lemma tail_split_nil (p s' : string) : "" <> p ++ "," ++ s'.
Proof. destruct p; discriminate. Qed.

(** The first token of [strings.Split(s, ",")] and the tokens after it. *)
Lemma genSplit_comma_tokens (s t : string) :
  noComma t = true ->
  (t = fst (genSplit "," 0 s) <-> headToken t s)
  /\ (In t (snd (genSplit "," 0 s))
      <-> exists p s', s = p ++ "," ++ s' /\ headToken t s').
Proof.
  intros Hno. revert t Hno. induction s as [|d s IH]; intros t Hno.
  - simpl. split.
    + rewrite headToken_nil. reflexivity.
    + split; [contradiction|]. intros (p & s' & Heq & _).
      now apply tail_split_nil in Heq.
  - rewrite genSplit_comma_cons.
    destruct (genSplit "," 0 s) as [t0 r] eqn:Hs. cbn [fst snd] in IH.
    destruct (Ascii.eqb_spec d ",") as [->|Hd]; cbn [fst snd].
    + split.
      * change (String "," s) with ("," ++ s).
        rewrite (headToken_comma t s Hno). reflexivity.
      * cbn [In]. rewrite (proj2 (IH t Hno)).
        split.
        -- intros [Heq|(p & s' & -> & Hh)].
           ++ exists "", s. split; [reflexivity|].
              apply (proj1 (IH t Hno)). now symmetry.
           ++ exists ("," ++ p), s'. split; [reflexivity|assumption].
        -- intros (p & s' & Heq & Hh). destruct p as [|c p].
           ++ simpl in Heq. injection Heq as ->. left.
              symmetry. now apply (proj1 (IH t Hno)).
           ++ simpl in Heq. injection Heq as <- ->. right. now exists p, s'.
    + split.
      * rewrite (headToken_other d t s Hd). split.
        -- intros ->. exists t0. split; [reflexivity|].
           apply noComma_cons in Hno.
           apply (proj1 (IH t0 Hno)). reflexivity.
        -- intros (t' & -> & Hh). f_equal.
           apply noComma_cons in Hno.
           now apply (proj1 (IH t' Hno)).
      * rewrite (proj2 (IH t Hno)). split.
        -- intros (p & s' & -> & Hh). now exists (String d p), s'.
        -- intros (p & s' & Heq & Hh). destruct p as [|c p].
           ++ simpl in Heq. injection Heq as -> _. congruence.
           ++ simpl in Heq. injection Heq as <- ->. now exists p, s'.
Qed.

Lemma Split_comma_tokens (s t : string) :
  noComma t = true -> (In t (Split s ",") <-> isToken t s).
Proof.
  intros Hno. unfold Split, isToken.
  pose proof (genSplit_comma_tokens s t Hno) as [Hhead Htail].
  destruct (genSplit "," 0 s) as [t0 r]. cbn [fst snd] in *.
  cbn [In]. rewrite <- Hhead, <- Htail. intuition auto.
Qed.

Section Scope.
Context `{Unicode} `{RegexpEngine} `{Kubernetes}.

(** A kind is in scope exactly when its lower-cased name stands in the
    lower-cased scope as a whole token, bounded on each side by a comma or
    by the end of the scope: a prefix of a token, a token with a blank
    before or after it, or a longer token do not select it. *)
Theorem isInWhere_exact_token (a : Application) (obj : string) :
  noComma (ToLower obj) = true ->
  (isInWhere a obj = true
   <-> isToken (ToLower obj) (ToLower (WhereToSearch a))).
Proof.
  intros Hno. rewrite isInWhere_In. now apply Split_comma_tokens.
Qed.

End Scope.

(* ===================================================================== *)
(** ** More about [Run] *)
(* ===================================================================== *)

Definition isCall (e : Event) : bool :=
  match e with
  | Call _ _ => true
  | Log _ _ _ => false
  end.

Section RunMore.
Context `{Unicode} `{RegexpEngine} `{Kubernetes}.

Lemma collect_out_of_scope (rs : list Resource) (st : State) :
  (forall r, In r rs -> isInWhere (app st) (typeOf r) = false) ->
  forSearchFuncs (map getObjects rs) st = Returned None st.
Proof.
  induction rs as [|r rs IH]; intros Hout; [reflexivity|].
  cbn [map forSearchFuncs]. unfold bind. rewrite getObjects_run.
  rewrite (Hout r (or_introl eq_refl)). apply IH.
  intros r' Hr'. apply Hout. now right.
Qed.

(** [Run] on an application whose client was never built panics at the
    first kind in scope, after the log line of that kind and before any
    list call; the store is as it was. *)
Theorem Run_without_client_panics
        (st : State) (r : Resource) (before after : list Resource) :
  order = (before ++ r :: after)%list ->
  clientset (app st) = None ->
  (forall r', In r' before -> isInWhere (app st) (typeOf r') = false) ->
  isInWhere (app st) (typeOf r) = true ->
  Run st
  = Panicked {| app := app st;
                trace := (trace st
                          ++ [Log LevelInfo []
                                  ("Getting " ++ typeOf r ++ " ...")])%list |}.
Proof.
  intros Horder Hcs Hout Hin.
  unfold Run, bind at 1. rewrite searchFuncs_order, Horder, map_app.
  rewrite forSearchFuncs_app, (collect_out_of_scope before st Hout).
  cbn [map forSearchFuncs]. unfold bind at 1.
  now rewrite getObjects_run, Hin, Hcs.
Qed.

(** A scope that names none of the five kinds makes [Run] a scan of the
    store as it stands: no log line of the collection, no list call, no
    error; with an empty store nothing happens at all, client or not. *)
Theorem Run_nothing_in_scope (st : State) :
  (forall r, isInWhere (app st) (typeOf r) = false) ->
  Run st = bind search (fun _ => ret None) st
  /\ (KubernetesObjects (app st) = [] -> Run st = Returned None st).
Proof.
  intros Hout.
  assert (Hrun : Run st = bind search (fun _ => ret None) st).
  { unfold Run, bind at 1. rewrite searchFuncs_order.
    rewrite (collect_out_of_scope order st (fun r _ => Hout r)).
    reflexivity. }
  split; [exact Hrun|].
  intros Hempty. rewrite Hrun.
  unfold search. unfold bind, this. cbv beta iota. rewrite Hempty. reflexivity.
Qed.

Lemma collect_error_inv (rs : list Resource) (st st' : State) (err : error) :
  forSearchFuncs (map getObjects rs) st = Returned (Some err) st' ->
  exists cs r e before after,
    rs = (before ++ r :: after)%list
    /\ clientset (app st) = Some cs
    /\ (forall r', In r' before -> isInWhere (app st) (typeOf r') = true ->
                   exists items,
                     ListResource cs r' (Namespace (app st)) = inl items)
    /\ isInWhere (app st) (typeOf r) = true
    /\ ListResource cs r (Namespace (app st)) = inr e
    /\ err = Wrap e ("error in " ++ typeOf r).
Proof.
  revert st. induction rs as [|r0 rs IH]; intros st; [discriminate|].
  cbn [map forSearchFuncs]. unfold bind. rewrite getObjects_run.
  destruct (isInWhere (app st) (typeOf r0)) eqn:Hin.
  - destruct (clientset (app st)) as [cs|] eqn:Hcs; [|discriminate].
    destruct (ListResource cs r0 (Namespace (app st))) as [items|e] eqn:Hl.
    + intros Hrest.
      destruct (IH _ Hrest)
        as (cs' & r & e & before & after & -> & Hcs' & Hok & Hin' & Hl' & ->).
      cbn [app stored clientset Namespace] in Hcs', Hok, Hl'.
      change (isInWhere (stored (fetched (app st) r0) (app st)) (typeOf r))
        with (isInWhere (app st) (typeOf r)) in Hin'.
      assert (cs' = cs) by congruence. subst cs'.
      exists cs, r, e, (r0 :: before), after.
      repeat (split; [reflexivity || assumption|]).
      split; [|repeat split; assumption].
      intros r' [<-|Hr'] Hr'in; [eauto|].
      apply (Hok r' Hr'). exact Hr'in.
    + intros [= <- <-]. exists cs, r0, e, [], rs.
      repeat split; try assumption. intros r' [].
  - intros Hrest.
    destruct (IH _ Hrest)
      as (cs' & r & e & before & after & -> & Hcs' & Hok & Hin' & Hl' & ->).
    exists cs', r, e, (r0 :: before), after.
    repeat (split; [reflexivity || assumption|]).
    split; [|repeat split; assumption].
    intros r' [<-|Hr'] Hr'in; [congruence|].
    now apply Hok.
Qed.

(** [Run] returns an error only when the list call of a kind in scope has
    failed, the calls of the kinds before it having succeeded, and the
    error is that of the provider wrapped with the name of the kind: no
    other part of a run produces an error. *)
Theorem Run_error_from_provider (st st' : State) (err : error) :
  Run st = Returned (Some err) st' ->
  exists cs r e before after,
    order = (before ++ r :: after)%list
    /\ clientset (app st) = Some cs
    /\ (forall r', In r' before -> isInWhere (app st) (typeOf r') = true ->
                   exists items,
                     ListResource cs r' (Namespace (app st)) = inl items)
    /\ isInWhere (app st) (typeOf r) = true
    /\ ListResource cs r (Namespace (app st)) = inr e
    /\ err = Wrap e ("error in " ++ typeOf r).
Proof.
  unfold Run, bind at 1. rewrite searchFuncs_order.
  destruct (forSearchFuncs (map getObjects order) st) as [[e|] st1|st1] eqn:Hc.
  - unfold ret. intros [= <- <-]. now apply collect_error_inv in Hc.
  - unfold bind. destruct (search st1); [unfold ret|]; discriminate.
  - discriminate.
Qed.

Lemma scanned_not_Call (a : Application) (evs : list Event) :
  Forall (scanned a) evs -> filter isCall evs = [].
Proof.
  induction 1 as [|e evs He _ IH]; [reflexivity|].
  simpl. apply scanned_is_Log in He as (l & at_ & m & ->). exact IH.
Qed.

Lemma collect_calls (rs : list Resource) (st : State) :
  exists os evs k,
    stateOf (forSearchFuncs (map getObjects rs) st)
    = {| app := stored os (app st); trace := (trace st ++ evs)%list |}
    /\ filter isCall evs
       = map (fun r => Call r (Namespace (app st)))
             (filter (fun r => isInWhere (app st) (typeOf r)) (firstn k rs)).
Proof.
  revert st. induction rs as [|r rs IH]; intros st.
  - exists [], [], O. rewrite stored_nil, app_nil_r. split; [|reflexivity].
    now destruct st.
  - cbn [map forSearchFuncs]. unfold bind. rewrite getObjects_run.
    destruct (isInWhere (app st) (typeOf r)) eqn:Hin.
    + destruct (clientset (app st)) as [cs|].
      * destruct (ListResource cs r (Namespace (app st))) as [items|e].
        -- destruct (IH {| app := stored (fetched (app st) r) (app st);
                           trace := (trace st ++ calls (app st) r)%list |})
             as (os & evs & k & Hst & Hcalls).
           cbn [app trace] in Hst, Hcalls.
           exists (fetched (app st) r ++ os)%list,
                  (calls (app st) r ++ evs)%list, (S k).
           rewrite Hst, stored_stored, <- app_assoc. split; [reflexivity|].
           rewrite filter_app, Hcalls. unfold calls. rewrite Hin.
           cbn [firstn filter isCall List.app map]. rewrite Hin. reflexivity.
        -- exists [], (calls (app st) r), 1%nat. rewrite stored_nil.
           split; [reflexivity|]. unfold calls. rewrite Hin.
           cbn [firstn filter isCall map]. rewrite Hin. reflexivity.
      * exists [], [getting r], O. rewrite stored_nil. split; reflexivity.
    + destruct (IH st) as (os & evs & k & Hst & Hcalls).
      exists os, evs, (S k). split; [exact Hst|].
      rewrite Hcalls. cbn [firstn filter]. now rewrite Hin.
Qed.

(** The list calls of a run, whatever its end (return, error or panic):
    they are those of the kinds in scope, taken in the fixed order up to
    some kind, each made once and each for the namespace of the
    application. *)
Theorem Run_list_calls (st : State) :
  exists evs k,
    trace (stateOf (Run st)) = (trace st ++ evs)%list
    /\ filter isCall evs
       = map (fun r => Call r (Namespace (app st)))
             (filter (fun r => isInWhere (app st) (typeOf r)) (firstn k order)).
Proof.
  unfold Run, bind at 1. rewrite searchFuncs_order.
  destruct (collect_calls order st) as (os & evs1 & k & Hst & Hcalls).
  destruct (forSearchFuncs (map getObjects order) st) as [[e|] st1|st1];
    cbn [stateOf] in Hst.
  - exists evs1, k. unfold ret. cbn [stateOf]. now rewrite Hst.
  - destruct (search_events st1) as (evs2 & res & Hs & Hev2).
    exists (evs1 ++ evs2)%list, k. unfold bind. rewrite Hs. split.
    + destruct res as [[]|]; unfold ret; cbn [outcomeOf stateOf];
        rewrite Hst; unfold logged; cbn [app trace]; now rewrite app_assoc.
    + rewrite filter_app, Hcalls, (scanned_not_Call _ _ Hev2).
      now rewrite app_nil_r.
  - exists evs1, k. cbn [stateOf]. now rewrite Hst.
Qed.





End RunMore.

(* ===================================================================== *)
(** ** More about the scan *)
(* ===================================================================== *)

Lemma substring_split (s : string) (n m1 m2 : nat) :
  substring n (m1 + m2) s
  = substring n m1 s ++ substring (n + m1) m2 s.
Proof.
  revert n m1. induction s as [|c s IH]; intros n m1.
  - destruct n, m1, m2; reflexivity.
  - destruct n as [|n].
    + destruct m1 as [|m1]; [reflexivity|].
      simpl. f_equal. apply (IH O m1).
    + simpl. apply IH.
Qed.

Lemma substring_length_exact (s : string) (n m : nat) :
  (n + m <= String.length s)%nat -> String.length (substring n m s) = m.
Proof.
  revert n m. induction s as [|c s IH]; intros n m; simpl.
  - intros Hle. assert (n = O) by lia. assert (m = O) by lia. now subst.
  - destruct n as [|n].
    + destruct m as [|m]; [reflexivity|].
      simpl. intros Hle. f_equal. apply IH. lia.
    + simpl. intros Hle. apply IH. lia.
Qed.

Lemma window_split (text : string) (lo mid hi : Z) :
  0 <= lo -> lo <= mid -> mid <= hi ->
  window text lo hi = window text lo mid ++ window text mid hi.
Proof.
  intros Hlo Hmid Hhi. unfold window.
  replace (Z.to_nat (hi - lo))
    with (Z.to_nat (mid - lo) + Z.to_nat (hi - mid))%nat by lia.
  replace (Z.to_nat mid) with (Z.to_nat lo + Z.to_nat (mid - lo))%nat by lia.
  apply substring_split.
Qed.

Lemma window_len (text : string) (lo hi : Z) :
  0 <= lo -> lo <= hi -> hi <= len text -> len (window text lo hi) = hi - lo.
Proof.
  intros Hlo Hhi Hlen. unfold window, len in *.
  rewrite substring_length_exact by lia. lia.
Qed.

Lemma mapBytes_app (f : ascii -> ascii) (s t : string) :
  mapBytes f (s ++ t) = mapBytes f s ++ mapBytes f t.
Proof. induction s as [|c s IH]; simpl; [reflexivity|now rewrite IH]. Qed.

Lemma newlinesToSpaces_len (s : string) : len (newlinesToSpaces s) = len s.
Proof. unfold newlinesToSpaces, len. now rewrite mapBytes_length. Qed.

(** No byte of the text is a newline. *)
Definition singleLine (s : string) : bool :=
  negb (anyByte (Ascii.eqb (ascii_of_nat 10)) s).

Lemma newlinesToSpaces_singleLine (s : string) :
  singleLine (newlinesToSpaces s) = true.
Proof.
  unfold singleLine, newlinesToSpaces.
  induction s as [|c s IH]; [reflexivity|].
  cbn [mapBytes anyByte]. apply negb_true_iff, orb_false_iff. split.
  - destruct (Ascii.eqb_spec c (ascii_of_nat 10)) as [->|Hne]; [reflexivity|].
    apply Ascii.eqb_neq. congruence.
  - now apply negb_true_iff.
Qed.

Lemma Forall2_map_r {A B : Type} (P : A -> B -> Prop) (f : A -> B)
      (l : list A) :
  (forall x, In x l -> P x (f x)) -> Forall2 P l (map f l).
Proof.
  induction l as [|x l IH]; intros Hall; constructor.
  - apply Hall. now left.
  - apply IH. intros y Hy. apply Hall. now right.
Qed.

Section ScanMore.
Context `{Unicode} `{RegexpEngine} `{Kubernetes}.

(** Every record a scan writes is one line: neither the snippet of a
    match nor the "ignored" notice has a newline in its message, whatever
    the text of the object holds. *)
Theorem search_writes_single_lines (st : State) :
  exists evs res,
    search st = outcomeOf res (logged st evs)
    /\ forall level attrs msg,
        In (Log level attrs msg) evs -> singleLine msg = true.
Proof.
  destruct (search_events st) as (evs & res & Hs & Hev).
  exists evs, res. split; [exact Hs|].
  intros level attrs msg Hin. rewrite Forall_forall in Hev.
  destruct (Hev _ Hin)
    as (obj & _ & [[_ Heq]|(_ & re & loc & text & _ & _ & Hsn & Heq)]).
  - injection Heq as _ _ ->. reflexivity.
  - injection Heq as _ _ ->. unfold snippet in Hsn.
    destruct (slice _ _ _) as [t|]; [|discriminate].
    injection Hsn as <-. unfold newline. rewrite ReplaceAll_newline.
    apply newlinesToSpaces_singleLine.
Qed.

(** The message written for a match holds the matched bytes of the
    original text, with [r] bytes of the text before them and [r] bytes
    after them, fewer only where the text begins or ends; newlines are
    turned into spaces.  Its length is [min r s + (e - s) + min r (L - e)]. *)
Theorem report_context (st : State) (obj : KubernetesObject.t) (s e : Z) :
  let text := KubernetesObject.Object obj in
  let r := ShowTails (app st) in
  let L := len text in
  0 <= s -> s <= e -> e <= L -> 0 <= r -> L + r <= GoInt.maxInt ->
  let before := window text (s - Z.min r s) s in
  let matched := window text s e in
  let after := window text e (e + Z.min r (L - e)) in
  report obj (s, e) st
  = Returned tt
      (logged st
         [Log LevelInfo (attrsOf obj)
              (newlinesToSpaces before ++ newlinesToSpaces matched
               ++ newlinesToSpaces after)])
  /\ len before = Z.min r s
  /\ len matched = e - s
  /\ len after = Z.min r (L - e).
Proof.
  intros text r L Hs Hse HeL Hr Hmax before matched after.
  subst before matched after text r L.
  split; [|repeat split; rewrite window_len by lia; lia].
  pose proof (snippet_window (app st) obj s e) as Hw. cbv zeta in Hw.
  rewrite report_run, Hw by lia.
  unfold reported, newlinesToSpaces.
  rewrite <- !mapBytes_app. do 4 f_equal.
  replace (Z.max 0 (s - ShowTails (app st)))
    with (s - Z.min (ShowTails (app st)) s) by lia.
  replace (Z.min (len (KubernetesObject.Object obj))
                 (e + ShowTails (app st)))
    with (e + Z.min (ShowTails (app st))
                    (len (KubernetesObject.Object obj) - e)) by lia.
  rewrite (window_split _ (s - Z.min (ShowTails (app st)) s) s) by lia.
  rewrite (window_split _ s e) by lia.
  reflexivity.
Qed.

(** The records of the loop body of [search] for one object, when its
    windows are in bounds. *)
Definition objectReports (a : Application) (re : Regexp)
           (obj : KubernetesObject.t) : list Event :=
  let text := KubernetesObject.Object obj in
  if excluded a obj then [ignored obj]
  else map (fun loc =>
              reported obj
                (newlinesToSpaces
                   (window text
                           (Z.max 0 (fst loc - ShowTails a))
                           (Z.min (len text) (snd loc + ShowTails a)))))
           (FindAllStringIndex re (ToLower text) (-1)).

(** A text whose matches give windows in bounds: lower-casing keeps its
    length, and its length plus the radius is an [int]. *)
Definition windowsFit (a : Application) (text : string) : Prop :=
  len (ToLower text) = len text /\ len text + ShowTails a <= GoInt.maxInt.

Lemma searchObject_output
      (st : State) (re : Regexp) (obj : KubernetesObject.t) :
  whatToSearchRe (app st) = Some re ->
  0 <= ShowTails (app st) ->
  (excluded (app st) obj = false ->
   windowsFit (app st) (KubernetesObject.Object obj)) ->
  searchObject obj st
  = Returned tt (logged st (objectReports (app st) re obj)).
Proof.
  intros Hre Hr Hfit. rewrite searchObject_run. unfold objectReports.
  destruct (excluded (app st) obj); [reflexivity|].
  destruct (Hfit eq_refl) as [Hlen Hmax]. rewrite Hre.
  rewrite <- map_map with (g := reported obj).
  apply forRange_report with (a := app st); [|reflexivity].
  apply Forall2_map_r. intros [s e] Hin. cbn [fst snd].
  apply FindAllStringIndex_bounds in Hin.
  pose proof (snippet_window (app st) obj s e) as Hw. cbv zeta in Hw.
  apply Hw; lia.
Qed.

Lemma forRange_searchObject_output
      (re : Regexp) (objs : list KubernetesObject.t) (st : State) :
  whatToSearchRe (app st) = Some re ->
  0 <= ShowTails (app st) ->
  (forall obj, In obj objs ->
               excluded (app st) obj = false ->
               windowsFit (app st) (KubernetesObject.Object obj)) ->
  forRange objs searchObject st
  = Returned tt (logged st (flat_map (objectReports (app st) re) objs)).
Proof.
  revert st. induction objs as [|obj objs IH]; intros st Hre Hr Hfit.
  - simpl. unfold ret. now rewrite logged_nil.
  - cbn [forRange flat_map]. unfold bind.
    rewrite (searchObject_output st re obj Hre Hr)
      by (apply Hfit; now left).
    rewrite IH; cbn [logged app]; try assumption.
    + now rewrite logged_logged.
    + intros o Ho. apply Hfit. now right.
Qed.

(** The scan in closed form. *)
Lemma search_closed_form (st : State) (re : Regexp) :
  whatToSearchRe (app st) = Some re ->
  0 <= ShowTails (app st) ->
  (forall obj, In obj (KubernetesObjects (app st)) ->
               excluded (app st) obj = false ->
               windowsFit (app st) (KubernetesObject.Object obj)) ->
  search st
  = Returned tt
      (logged st (flat_map (objectReports (app st) re)
                           (KubernetesObjects (app st)))).
Proof.
  intros Hre Hr Hfit. unfold search, bind at 1, this at 1.
  now apply forRange_searchObject_output.
Qed.

(** The whole output of a scan.  With a compiled search expression, a
    radius that is not negative and texts whose windows are in bounds, the
    scan returns, and it has written, object by object in the order of
    the store, the "ignored" notice of an excluded object or else one
    snippet per match in the order of the matches. *)
Theorem search_output (st : State) (re : Regexp) :
  whatToSearchRe (app st) = Some re ->
  0 <= ShowTails (app st) ->
  (forall obj, In obj (KubernetesObjects (app st)) ->
               excluded (app st) obj = false ->
               windowsFit (app st) (KubernetesObject.Object obj)) ->
  search st
  = Returned tt
      (logged st (flat_map (objectReports (app st) re)
                           (KubernetesObjects (app st)))).
Proof.
  intros Hre Hr Hfit. unfold search, bind at 1, this at 1.
  now apply forRange_searchObject_output.
Qed.

(** A scan on an application whose search expression was never compiled
    panics at the first object that is not excluded, having written the
    notices of the excluded objects before it. *)
Theorem search_without_expression_panics
        (st : State) (obj : KubernetesObject.t)
        (before after : list KubernetesObject.t) :
  KubernetesObjects (app st) = (before ++ obj :: after)%list ->
  whatToSearchRe (app st) = None ->
  (forall o, In o before -> excluded (app st) o = true) ->
  excluded (app st) obj = false ->
  search st = Panicked (logged st (map ignored before)).
Proof.
  intros Hstore Hre Hbefore Hobj.
  unfold search, bind at 1, this at 1. rewrite Hstore. clear Hstore.
  revert st Hre Hbefore Hobj.
  induction before as [|o before IH]; intros st Hre Hbefore Hobj.
  - cbn [List.app forRange map]. unfold bind.
    rewrite searchObject_run, Hobj, Hre. now rewrite logged_nil.
  - cbn [List.app forRange map]. unfold bind.
    rewrite searchObject_run, (Hbefore o (or_introl eq_refl)).
    rewrite IH; cbn [logged app]; try assumption.
    + now rewrite logged_logged.
    + intros o' Ho'. apply Hbefore. now right.
Qed.

End ScanMore.

(* ===================================================================== *)
(** ** Where the stored objects come from, and runs that cannot panic *)
(* ===================================================================== *)

Section Provenance.
Context `{Unicode} `{RegexpEngine} `{Kubernetes}.

(** [provided a o]: the object [o] was built from an item that the
    provider returned for a kind in scope. *)
Definition provided (a : Application) (o : KubernetesObject.t) : Prop :=
  exists cs r items item,
    clientset a = Some cs
    /\ isInWhere a (typeOf r) = true
    /\ ListResource cs r (Namespace a) = inl items
    /\ In item items
    /\ o = toObject r item.

Lemma fetched_provided (a : Application) (r : Resource) :
  Forall (provided a) (fetched a r).
Proof.
  unfold fetched.
  destruct (isInWhere a (typeOf r)) eqn:Hin; [|constructor].
  destruct (clientset a) as [cs|] eqn:Hcs; [|constructor].
  destruct (ListResource cs r (Namespace a)) as [items|e] eqn:Hl;
    [|constructor].
  apply Forall_forall. intros o Ho. apply in_map_iff in Ho as (item & <- & Hi).
  exists cs, r, items, item. repeat split; assumption.
Qed.

Lemma collect_provenance (rs : list Resource) (st : State) :
  exists os evs,
    stateOf (forSearchFuncs (map getObjects rs) st)
    = {| app := stored os (app st); trace := (trace st ++ evs)%list |}
    /\ Forall (provided (app st)) os.
Proof.
  revert st. induction rs as [|r rs IH]; intros st.
  - exists [], []. rewrite stored_nil, app_nil_r. split; [|constructor].
    now destruct st.
  - cbn [map forSearchFuncs]. unfold bind. rewrite getObjects_run.
    destruct (isInWhere (app st) (typeOf r)) eqn:Hin.
    + destruct (clientset (app st)) as [cs|] eqn:Hcs.
      * destruct (ListResource cs r (Namespace (app st))) as [items|e] eqn:Hl.
        -- destruct (IH {| app := stored (fetched (app st) r) (app st);
                           trace := (trace st ++ calls (app st) r)%list |})
             as (os & evs & Hst & Hos).
           cbn [app trace] in Hst, Hos.
           exists (fetched (app st) r ++ os)%list,
                  (calls (app st) r ++ evs)%list.
           rewrite Hst, stored_stored, <- app_assoc. split; [reflexivity|].
           apply Forall_app. split; [apply fetched_provided|exact Hos].
        -- exists [], (calls (app st) r). rewrite stored_nil.
           split; [reflexivity|constructor].
      * exists [], [getting r]. rewrite stored_nil.
        split; [reflexivity|constructor].
    + exact (IH st).
Qed.

(** However a run ends, the store it leaves is the store it found
    followed by objects that were each built from an item the provider
    returned for a kind in scope: the kind of the object is the name of
    that kind, and its name, namespace and text are those of the item. *)
Theorem Run_store_provenance (st : State) :
  exists os,
    KubernetesObjects (app (stateOf (Run st)))
    = (KubernetesObjects (app st) ++ os)%list
    /\ forall o, In o os ->
                 exists cs r items item,
                   clientset (app st) = Some cs
                   /\ isInWhere (app st) (typeOf r) = true
                   /\ ListResource cs r (Namespace (app st)) = inl items
                   /\ In item items
                   /\ KubernetesObject.Kind o = typeOf r
                   /\ KubernetesObject.Name o = ItemName item
                   /\ KubernetesObject.Namespace o = ItemNamespace item
                   /\ KubernetesObject.Object o = ItemString item.
Proof.
  destruct (collect_provenance order st) as (os & evs & Hst & Hos).
  exists os. split.
  - unfold Run, bind at 1. rewrite searchFuncs_order.
    destruct (forSearchFuncs (map getObjects order) st) as [[e|] st1|st1];
      cbn [stateOf] in Hst.
    + unfold ret. cbn [stateOf]. now rewrite Hst.
    + destruct (search_events st1) as (evs2 & res & Hs & _).
      unfold bind. rewrite Hs.
      destruct res as [[]|]; unfold ret; cbn [outcomeOf stateOf logged app];
        now rewrite Hst.
    + cbn [stateOf]. now rewrite Hst.
  - intros o Ho. rewrite Forall_forall in Hos.
    destruct (Hos o Ho) as (cs & r & items & item & Hcs & Hin & Hl & Hi & ->).
    exists cs, r, items, item. repeat split; assumption.
Qed.

Lemma collect_returns (rs : list Resource) (st : State) (cs : Clientset) :
  clientset (app st) = Some cs ->
  exists res st1, forSearchFuncs (map getObjects rs) st = Returned res st1.
Proof.
  revert st. induction rs as [|r rs IH]; intros st Hcs.
  - simpl. unfold ret. eauto.
  - cbn [map forSearchFuncs]. unfold bind. rewrite getObjects_run, Hcs.
    destruct (isInWhere (app st) (typeOf r)).
    + destruct (ListResource cs r (Namespace (app st))) as [items|e].
      * apply IH. exact Hcs.
      * unfold ret. eauto.
    + now apply IH.
Qed.

(** A run with client, expression and fitting windows returns. *)
Lemma Run_cannot_panic (st : State) (cs : Clientset) (re : Regexp) :
  clientset (app st) = Some cs ->
  whatToSearchRe (app st) = Some re ->
  0 <= ShowTails (app st) ->
  (forall obj, In obj (KubernetesObjects (app st)) ->
               windowsFit (app st) (KubernetesObject.Object obj)) ->
  (forall r items item,
      ListResource cs r (Namespace (app st)) = inl items ->
      In item items ->
      windowsFit (app st) (ItemString item)) ->
  exists res st', Run st = Returned res st'.
Proof.
  intros Hcs Hre Hr Hstore Hitems.
  unfold Run, bind at 1. rewrite searchFuncs_order.
  destruct (collect_returns order st cs Hcs) as (res1 & st1 & Hc).
  destruct (collect_provenance order st) as (os & evs & Hst & Hos).
  rewrite Hc in *. cbn [stateOf] in Hst.
  destruct res1 as [e|]; [unfold ret; eauto|].
  unfold bind. rewrite (search_closed_form st1 re); rewrite Hst; cbn [app];
    try assumption.
  - unfold ret. eauto.
  - intros obj Hin _. cbn [stored KubernetesObjects] in Hin.
    change (windowsFit (app st) (KubernetesObject.Object obj)).
    apply in_app_or in Hin as [Hin|Hin]; [now apply Hstore|].
    rewrite Forall_forall in Hos.
    destruct (Hos obj Hin) as (cs' & r & items & item & Hcs' & _ & Hl & Hi & ->).
    assert (cs' = cs) by congruence. subst cs'.
    exact (Hitems r items item Hl Hi).
Qed.

(** A run cannot panic when the client and the search expression are
    there, the radius is not negative, and the windows fit for the texts
    already in the store and for the text of every item the provider
    returns: it returns, either with no error or with the error of a
    failed list call of a kind in scope, wrapped with the name of that
    kind. *)
Theorem Run_returns (st : State) (cs : Clientset) (re : Regexp) :
  clientset (app st) = Some cs ->
  whatToSearchRe (app st) = Some re ->
  0 <= ShowTails (app st) ->
  (forall obj, In obj (KubernetesObjects (app st)) ->
               windowsFit (app st) (KubernetesObject.Object obj)) ->
  (forall r items item,
      ListResource cs r (Namespace (app st)) = inl items ->
      In item items ->
      windowsFit (app st) (ItemString item)) ->
  exists res st',
    Run st = Returned res st'
    /\ (res = None
        \/ exists r e,
            isInWhere (app st) (typeOf r) = true
            /\ ListResource cs r (Namespace (app st)) = inr e
            /\ res = Some (Wrap e ("error in " ++ typeOf r))).
Proof.
  intros Hcs Hre Hr Hstore Hitems.
  destruct (Run_cannot_panic st cs re Hcs Hre Hr Hstore Hitems)
    as (res & st' & Hrun).
  exists res, st'. split; [exact Hrun|].
  destruct res as [err|]; [right|now left].
  unfold Run, bind at 1 in Hrun. rewrite searchFuncs_order in Hrun.
  destruct (forSearchFuncs (map getObjects order) st) as [[e|] st1|st1] eqn:Hc.
  - unfold ret in Hrun. injection Hrun as <- _.
    apply collect_error_inv in Hc
      as (cs' & r & e' & before & after & _ & Hcs' & _ & Hin & Hl & ->).
    assert (cs' = cs) by congruence. subst cs'.
    exists r, e'. repeat split; assumption.
  - unfold bind in Hrun. destruct (search st1); [unfold ret in Hrun|];
      discriminate.
  - discriminate.
Qed.

(** The program as a whole cannot panic when lower-casing keeps the
    length of every text that the cluster named by the credentials path
    returns (as it does for ASCII texts) and no text is within ten bytes
    of the largest [int]: [main] ends by returning, with an error to
    report or with none. *)
Theorem main_returns (KUBECONFIG : string) (args : Args) (st : State) :
  (forall rc cs r items item,
      BuildConfigFromFlags "" (StringVar (arg_kubeconfig args) KUBECONFIG)
      = inl rc ->
      NewForConfig rc = inl cs ->
      ListResource cs r (StringVar (arg_namespace args) "") = inl items ->
      In item items ->
      len (ToLower (ItemString item)) = len (ItemString item)
      /\ len (ItemString item) + 10 <= GoInt.maxInt) ->
  exists res st', main KUBECONFIG args st = Returned res st'.
Proof.
  intros Hitems. unfold main, bind at 1, assign at 1.
  unfold bind at 1, this at 1. cbn [app trace].
  destruct (Validate (parsed KUBECONFIG args)); [unfold ret; eauto|].
  unfold bind at 1.
  destruct (Init_outcome {| app := parsed KUBECONFIG args; trace := trace st |})
    as (res & st1 & -> & Hok).
  destruct res as [e|]; [unfold ret; eauto|].
  destruct (Hok eq_refl)
    as (re & rc & cs & Hrc & Hnew & Hcs & Hre & Hr & Hstore & Hns).
  cbn [app parsed Kubeconfig ShowTails KubernetesObjects Namespace
       NewApplication] in Hrc, Hr, Hstore, Hns.
  apply (Run_cannot_panic st1 cs re Hcs Hre).
  - rewrite Hr. lia.
  - rewrite Hstore. intros obj [].
  - intros r items item Hl Hi. unfold windowsFit. rewrite Hr.
    rewrite Hns in Hl.
    exact (Hitems rc cs r items item Hrc Hnew Hl Hi).
Qed.

End Provenance.

(* ===================================================================== *)
(** ** A routine, a scan and a run from end to end *)
(* ===================================================================== *)

Section EndToEnd.
Context `{Unicode} `{RegexpEngine} `{Kubernetes}.

(** The collection routine of a kind in scope whose list call succeeds
    writes the line "Getting <Kind> ...", sends the one list call for the
    namespace of the application, appends one object per item returned,
    in the order returned, each tagged with the name of the kind, and
    returns no error. *)
Theorem getObjects_lists_and_appends
        (r : Resource) (st : State) (cs : Clientset) (items : list Item) :
  isInWhere (app st) (typeOf r) = true ->
  clientset (app st) = Some cs ->
  ListResource cs r (Namespace (app st)) = inl items ->
  exists st',
    getObjects r st = Returned None st'
    /\ trace st'
       = (trace st ++ [Log LevelInfo [] ("Getting " ++ typeOf r ++ " ...");
                       Call r (Namespace (app st))])%list
    /\ KubernetesObjects (app st')
       = (KubernetesObjects (app st)
          ++ map (fun object =>
                    {| KubernetesObject.Kind := typeOf r;
                       KubernetesObject.Name := ItemName object;
                       KubernetesObject.Namespace := ItemNamespace object;
                       KubernetesObject.Object := ItemString object |})
                 items)%list
    /\ isInWhere (app st') = isInWhere (app st)
    /\ clientset (app st') = clientset (app st)
    /\ whatToSearchRe (app st') = whatToSearchRe (app st)
    /\ exceptRe (app st') = exceptRe (app st).
Proof.
  intros Hin Hcs Hl.
  exists {| app := stored (fetched (app st) r) (app st);
            trace := (trace st ++ calls (app st) r)%list |}.
  rewrite getObjects_run, Hin, Hcs, Hl.
  split; [reflexivity|]. cbn [app trace]. unfold calls, fetched.
  rewrite Hin, Hcs, Hl. repeat split. exact Hcs.
Qed.

(** Every informational record a scan writes, however the scan ends, is
    the snippet of a match: it carries the attributes of an object of the
    store that is not excluded, and its message is what [report] writes
    for one of the matches of the search expression in the lower-cased
    text of that object.  Every debug record is the notice of an excluded
    object of the store. *)
Theorem search_reports_sound (st : State) :
  exists evs res,
    search st = outcomeOf res (logged st evs)
    /\ forall level attrs msg,
        In (Log level attrs msg) evs ->
        exists obj,
          In obj (KubernetesObjects (app st))
          /\ attrs = attrsOf obj
          /\ match level with
             | LevelDebug => excluded (app st) obj = true /\ msg = "ignored"
             | LevelInfo =>
                 excluded (app st) obj = false
                 /\ exists re loc,
                     whatToSearchRe (app st) = Some re
                     /\ In loc (FindAllStringIndex
                                  re (ToLower (KubernetesObject.Object obj))
                                  (-1))
                     /\ snippet (app st) obj loc = Some msg
             end.
Proof.
  destruct (search_events st) as (evs & res & Hs & Hev).
  exists evs, res. split; [exact Hs|].
  intros level attrs msg Hin. rewrite Forall_forall in Hev.
  destruct (Hev _ Hin)
    as (obj & Hobj & [[Hex Heq]|(Hex & re & loc & text & Hre & Hloc & Hsn & Heq)]);
    injection Heq as -> -> ->; exists obj; repeat split; try assumption.
  exists re, loc. repeat split; assumption.
Qed.

(** Without an exclude expression no object is skipped: a scan writes no
    debug record. *)
Theorem search_without_exclusion (st : State) :
  exceptRe (app st) = None ->
  exists evs res,
    search st = outcomeOf res (logged st evs)
    /\ forall attrs msg, ~ In (Log LevelDebug attrs msg) evs.
Proof.
  intros Hnone. destruct (search_events st) as (evs & res & Hs & Hev).
  exists evs, res. split; [exact Hs|].
  intros attrs msg Hin. rewrite Forall_forall in Hev.
  destruct (Hev _ Hin) as (obj & _ & [[Hex _]|(_ & re & loc & text & _ & _ & _ & Heq)]).
  - unfold excluded in Hex. rewrite Hnone in Hex. discriminate.
  - discriminate.
Qed.

(** A whole run, when nothing fails.  With the client and the search
    expression there, every list call in scope answered, and windows that
    fit, [Run] returns no error; the store is the old store followed by
    the fetched objects in kind order, and the trace gains first the
    lines and list calls of the kinds in scope, in the fixed order, then
    the records of the scan over the whole store, object by object. *)
Theorem Run_output (st : State) (cs : Clientset) (re : Regexp) :
  clientset (app st) = Some cs ->
  whatToSearchRe (app st) = Some re ->
  0 <= ShowTails (app st) ->
  (forall r, isInWhere (app st) (typeOf r) = true ->
             exists items, ListResource cs r (Namespace (app st)) = inl items) ->
  (forall obj, In obj (KubernetesObjects (app st)) ->
               windowsFit (app st) (KubernetesObject.Object obj)) ->
  (forall r items item,
      ListResource cs r (Namespace (app st)) = inl items ->
      In item items ->
      windowsFit (app st) (ItemString item)) ->
  let fetchedAll := List.concat (map (fetched (app st)) order) in
  Run st
  = Returned None
      {| app := stored fetchedAll (app st);
         trace := (trace st
                   ++ List.concat (map (calls (app st)) order)
                   ++ flat_map (objectReports (app st) re)
                               (KubernetesObjects (app st) ++ fetchedAll))%list |}.
Proof.
  intros Hcs Hre Hr Hok Hstore Hitems fetchedAll.
  unfold Run, bind at 1. rewrite searchFuncs_order.
  rewrite (collect_succeeds order st cs Hcs (fun r _ => Hok r)).
  unfold bind. fold fetchedAll.
  rewrite (search_closed_form _ re); cbn [app trace]; try assumption.
  - unfold ret, logged. cbn [app trace stored KubernetesObjects].
    now rewrite <- app_assoc.
  - intros obj Hin _. cbn [stored KubernetesObjects] in Hin.
    change (windowsFit (app st) (KubernetesObject.Object obj)).
    apply in_app_or in Hin as [Hin|Hin]; [now apply Hstore|].
    unfold fetchedAll in Hin. apply in_concat in Hin as (os & Hos & Ho).
    apply in_map_iff in Hos as (r & <- & _).
    pose proof (fetched_provided (app st) r) as Hp.
    rewrite Forall_forall in Hp.
    destruct (Hp obj Ho) as (cs' & r' & items & item & Hcs' & _ & Hl & Hi & ->).
    assert (cs' = cs) by congruence. subst cs'.
    exact (Hitems r' items item Hl Hi).
Qed.

End EndToEnd.

(* ===================================================================== *)
(** ** The program run on a small cluster *)
(* ===================================================================== *)

(** One pod, one config map and one cron job; listing the deployments is
    forbidden. *)
Definition demoCluster (r : Resource) (namespace : string) : list Item + error :=
  match r with
  | Pods =>
      inl [{| ItemName := "p1"; ItemNamespace := "ns1";
              ItemString := "foo BAR foo" |}]
  | ConfigMaps =>
      inl [{| ItemName := "c1"; ItemNamespace := "ns1";
              ItemString := "key: Foo" ++ newline ++ "value: food" |}]
  | Deployments => inr (errorString "forbidden")
  | StatefulSets => inl []
  | CronJobs =>
      inl [{| ItemName := "nightly"; ItemNamespace := "ns2";
              ItemString := "schedule: FOO" |}]
  end.

#[local] Existing Instance bytewise.
#[local] Existing Instance Literal.engine.
#[local] Instance demoKubernetes : Kubernetes := canned demoCluster.

Definition demoArgs (scope : option string) (find except : string) : Args :=
  {| arg_kubeconfig := Some "/home/user/.kube/config";
     arg_where := scope;
     arg_find := Some find;
     arg_namespace := None;
     arg_except := Some except |}.

(** The state in which [main] calls [Run]: flags parsed, [Init] done. *)
Definition initialised (scope : option string) (find except : string) : State :=
  stateOf (Init {| app := parsed "" (demoArgs scope find except); trace := [] |}).

(** The same with the pod of the cluster in the store and a radius of 2. *)
Definition scenario (find except : string) : State :=
  let a := app (initialised (Some "pods") find except) in
  {| app := {| clientset := clientset a;
               Kubeconfig := Kubeconfig a;
               WhereToSearch := WhereToSearch a;
               WhatToSearch := WhatToSearch a;
               whatToSearchRe := whatToSearchRe a;
               Namespace := Namespace a;
               KubernetesObjects := [toObject Pods
                                       {| ItemName := "p1";
                                          ItemNamespace := "ns1";
                                          ItemString := "foo BAR foo" |}];
               ShowTails := 2;
               Except := Except a;
               exceptRe := exceptRe a |};
     trace := [] |}.

Definition p1 : KubernetesObject.t :=
  toObject Pods {| ItemName := "p1"; ItemNamespace := "ns1";
                   ItemString := "foo BAR foo" |}.

Definition foo : Regexp :=
  {| Literal.atStart := false; Literal.body := "foo"; Literal.atEnd := false |}.

Definition p1Attrs : list (string * string) :=
  [("kind", "Pods"); ("name", "p1"); ("namespace", "ns1")].

(** The end-to-end scenario of the design: two reports, with the windows
    [0, 5) and [6, 11). *)
Example scenario_two_reports :
  search (scenario "foo" "")
  = Returned tt (logged (scenario "foo" "")
                        [Log LevelInfo p1Attrs "foo B";
                         Log LevelInfo p1Attrs "R foo"]).
Proof. reflexivity. Qed.

(** The exclusion scenario: no report. *)
Example scenario_excluded :
  search (scenario "foo" "^ns1/p1$")
  = Returned tt (logged (scenario "foo" "^ns1/p1$")
                        [Log LevelDebug p1Attrs "ignored"]).
Proof. reflexivity. Qed.

(** The scope scenario: only the pods and the cron jobs are listed. *)
Example scenario_scope :
  filter (fun e => match e with Call _ _ => true | _ => false end)
         (trace (stateOf (Run (initialised (Some "pods,cronjobs") "foo" ""))))
  = [Call Pods ""; Call CronJobs ""].
Proof. reflexivity. Qed.

(** With the flag [-where] left out, a run lists nothing and so reports
    nothing. *)
Example default_scope_run :
  main "" (demoArgs None "foo" "") {| app := NewApplication; trace := [] |}
  = Returned None (initialised None "foo" "").
Proof. reflexivity. Qed.

Example default_scope_trace : trace (initialised None "foo" "") = [].
Proof. reflexivity. Qed.

(** Matches that would overlap are not both delivered. *)
Example FindAllStringIndex_aaaaa :
  FindAllStringIndex
    {| Literal.atStart := false; Literal.body := "aa"; Literal.atEnd := false |}
    "aaaaa" (-1)
  = [(0, 2); (2, 4)].
Proof. reflexivity. Qed.

(* ===================================================================== *)
(** ** The theorems at concrete inputs *)
(* ===================================================================== *)





Lemma getObjects_out_of_scope_witness :
  let st := initialised (Some "pods,cronjobs") "foo" "" in
  isInWhere (app st) (typeOf Deployments) = false
  /\ getObjects Deployments st = Returned None st.
Proof.
  intros st. split; [reflexivity|].
  exact (proj1 (getObjects_out_of_scope Deployments st eq_refl)).
Defined.

Lemma Run_provider_error_witness :
  let st := initialised (Some "pods,deployments,cronjobs") "foo" "" in
  exists st',
    Run st = Returned (Some (Wrap (errorString "forbidden")
                                  "error in Deployments")) st'
    /\ trace st' = [getting Pods; Call Pods "";
                    getting Deployments; Call Deployments ""]
    /\ KubernetesObjects (app st') = [p1].
Proof.
  intros st.
  assert (Hok : forall r', In r' [Pods; ConfigMaps] ->
                    isInWhere (app st) (typeOf r') = true ->
                    exists items,
                      ListResource demoCluster r' (Namespace (app st))
                      = inl items).
  { intros r' [<-|[<-|[]]] _; eexists; reflexivity. }
  destruct (Run_provider_error
              st demoCluster Deployments (errorString "forbidden")
              [Pods; ConfigMaps] [StatefulSets; CronJobs]
              eq_refl eq_refl Hok eq_refl eq_refl)
    as (st' & evs & Hrun & Htrace & Hevs & _ & _ & Hstore).
  exists st'. split; [exact Hrun|]. split.
  - rewrite Htrace, Hevs. reflexivity.
  - rewrite Hstore. reflexivity.
Defined.

Lemma store_kind_major_witness :
  let st := initialised (Some "cronjobs,pods,configmaps") "foo" "" in
  KubernetesObjects (app (stateOf (forSearchFuncs searchFuncs st)))
  = [toObject Pods {| ItemName := "p1"; ItemNamespace := "ns1";
                      ItemString := "foo BAR foo" |};
     toObject ConfigMaps {| ItemName := "c1"; ItemNamespace := "ns1";
                            ItemString := "key: Foo" ++ newline
                                          ++ "value: food" |};
     toObject CronJobs {| ItemName := "nightly"; ItemNamespace := "ns2";
                          ItemString := "schedule: FOO" |}].
Proof.
  intros st.
  exact (proj1 (store_kind_major
                  st (stateOf (forSearchFuncs searchFuncs st)) eq_refl)).
Defined.

Lemma report_window_witness :
  report p1 (8, 11) (scenario "foo" "")
  = Returned tt (logged (scenario "foo" "") [Log LevelInfo p1Attrs "R foo"]).
Proof.
  apply (report_window (scenario "foo" "") p1 8 11); vm_compute; discriminate.
Defined.

Lemma window_in_bounds_witness :
  len (ToLower "foo BAR foo") = len "foo BAR foo"
  /\ exists st', searchObject p1 (scenario "foo" "") = Returned tt st'.
Proof.
  split; [reflexivity|].
  refine (proj2 (window_in_bounds (scenario "foo" "") p1 foo
                                  eq_refl eq_refl _ _));
    vm_compute; discriminate.
Defined.

Lemma excluded_object_ignored_witness :
  searchObject p1 (scenario "foo" "^ns1/p1$")
  = Returned tt (logged (scenario "foo" "^ns1/p1$")
                        [Log LevelDebug p1Attrs "ignored"]).
Proof.
  exact (proj1 (excluded_object_ignored
                  (scenario "foo" "^ns1/p1$") p1
                  {| Literal.atStart := true; Literal.body := "ns1/p1";
                     Literal.atEnd := true |}
                  eq_refl eq_refl)).
Defined.

Lemma matches_left_to_right_witness :
  FindAllStringIndex foo (ToLower "foo BAR foo") (-1) = [(0, 3); (8, 11)]
  /\ successive 0 [(0, 3); (8, 11)] 11
  /\ occurrences foo "foo bar foo" 0 (-1) [(0, 3); (8, 11)].
Proof.
  split; [reflexivity|].
  destruct (matches_left_to_right (scenario "foo" "") p1 foo eq_refl eq_refl)
    as (Hsuccessive & _ & _ & Hoccurrences & _).
  split; [exact Hsuccessive|exact Hoccurrences].
Defined.


(* ===================================================================== *)
(** ** Lower-casing that changes the length of the text *)
(* ===================================================================== *)

(** [strings.ToLower] on a text whose only rune outside ASCII is U+023A
    (the bytes C8 BA): [unicode.ToLower] sends it to U+2C65, whose
    encoding has the three bytes E2 B1 A5.  [skip] tells that the byte at
    hand is the second one of a rune already rewritten. *)
Fixpoint lowerStroke (skip : bool) (s : string) : string :=
  match s with
  | EmptyString => EmptyString
  | String c s' =>
      if skip then lowerStroke false s'
      else if (byte c =? 200)
              && match s' with
                 | String d _ => byte d =? 186
                 | EmptyString => false
                 end
      then String (ascii_of_nat 226)
                  (String (ascii_of_nat 177)
                          (String (ascii_of_nat 165) (lowerStroke true s')))
      else String (lowerByte c) (lowerStroke false s')
  end.

Lemma lowerStroke_no_upper (skip : bool) (s : string) :
  hasUpper (lowerStroke skip s) = false.
Proof.
  unfold hasUpper. revert skip.
  induction s as [|c s IH]; intros skip; [reflexivity|].
  cbn [lowerStroke]. destruct skip; [apply IH|].
  destruct ((byte c =? 200)
            && match s with
               | String d _ => byte d =? 186
               | EmptyString => false
               end).
  - cbn [anyByte]. rewrite IH. reflexivity.
  - cbn [anyByte]. now rewrite lowerByte_not_upper, IH.
Qed.

Definition strokes : Unicode :=
  {| MapToLower := lowerStroke false;
     MapToLower_no_upper := lowerStroke_no_upper false |}.

Fixpoint repeatString (n : nat) (s : string) : string :=
  match n with
  | O => EmptyString
  | S n' => s ++ repeatString n' s
  end.

(** A config map whose text is U+023A twenty times (40 bytes; 60 once
    lower-cased), searched for U+2C65 at the end of the text. *)
Definition strokeObject : KubernetesObject.t :=
  {| KubernetesObject.Kind := "ConfigMaps";
     KubernetesObject.Name := "c2";
     KubernetesObject.Namespace := "ns1";
     KubernetesObject.Object :=
       repeatString 20 (String (ascii_of_nat 200)
                               (String (ascii_of_nat 186) EmptyString)) |}.

Definition strokeState : State :=
  {| app := {| clientset := Some demoCluster;
               Kubeconfig := "/home/user/.kube/config";
               WhereToSearch := "configmaps";
               WhatToSearch := "";
               whatToSearchRe :=
                 Some {| Literal.atStart := false;
                         Literal.body :=
                           String (ascii_of_nat 226)
                                  (String (ascii_of_nat 177)
                                          (String (ascii_of_nat 165)
                                                  EmptyString));
                         Literal.atEnd := true |};
               Namespace := "";
               KubernetesObjects := [strokeObject];
               ShowTails := 10;
               Except := "";
               exceptRe := None |};
     trace := [] |}.

(** The match is at [57, 60) of the lower-cased text; the window starts
    at 47, past the end of the original text, and the slice expression
    panics.  The condition on the length in [window_in_bounds] cannot be
    dropped. *)
Example search_panics_when_text_grows :
  len (@ToLower strokes (KubernetesObject.Object strokeObject)) = 60
  /\ len (KubernetesObject.Object strokeObject) = 40
  /\ @FindAllStringIndex Literal.engine
       {| Literal.atStart := false;
          Literal.body :=
            String (ascii_of_nat 226)
                   (String (ascii_of_nat 177)
                           (String (ascii_of_nat 165) EmptyString));
          Literal.atEnd := true |}
       (@ToLower strokes (KubernetesObject.Object strokeObject)) (-1)
     = [(57, 60)]
  /\ @search strokes Literal.engine demoKubernetes strokeState
     = Panicked strokeState.
Proof. repeat split; reflexivity. Qed.

(* ===================================================================== *)
(** ** The further theorems at concrete inputs *)
(* ===================================================================== *)

Lemma main_rejects_missing_setting_witness :
  exists msg,
    main "" {| arg_kubeconfig := Some "/home/user/.kube/config";
               arg_where := None;
               arg_find := None;
               arg_namespace := None;
               arg_except := None |}
         {| app := NewApplication; trace := [] |}
    = Returned (Some (errorString msg))
               {| app := parsed "" {| arg_kubeconfig :=
                                        Some "/home/user/.kube/config";
                                      arg_where := None;
                                      arg_find := None;
                                      arg_namespace := None;
                                      arg_except := None |};
                  trace := [] |}.
Proof.
  destruct (main_rejects_missing_setting
              "" {| arg_kubeconfig := Some "/home/user/.kube/config";
                    arg_where := None;
                    arg_find := None;
                    arg_namespace := None;
                    arg_except := None |}
              {| app := NewApplication; trace := [] |}
              (or_intror (or_intror eq_refl))) as (msg & Hrun & _).
  exists msg. exact Hrun.
Defined.

Lemma Init_failure_state_witness :
  let st := {| app := parsed "" (demoArgs (Some "pods") "fo+" "");
               trace := [] |} in
  whatToSearchRe (app (stateOf (Init st))) = None
  /\ clientset (app (stateOf (Init st))) = None.
Proof.
  intros st.
  destruct (Init_failure_state
              st (stateOf (Init st))
              (Wrap (errorString "error parsing regexp: not a literal: fo+")
                    "error in regexp.Compile fo+")
              eq_refl) as (_ & _ & Hre & Hcs & _).
  split; [exact Hre|exact Hcs].
Defined.

Lemma isInWhere_exact_token_witness :
  isInWhere (app (initialised (Some "configmaps,Pods") "foo" "")) "Pods" = true
  <-> isToken "pods" "configmaps,pods".
Proof.
  exact (isInWhere_exact_token
           (app (initialised (Some "configmaps,Pods") "foo" "")) "Pods"
           eq_refl).
Defined.

Lemma Run_without_client_panics_witness :
  let st := {| app := parsed "" (demoArgs (Some "configmaps") "foo" "");
               trace := [] |} in
  Run st
  = Panicked {| app := app st;
                trace := [Log LevelInfo [] "Getting ConfigMaps ..."] |}.
Proof.
  intros st.
  refine (Run_without_client_panics
            st ConfigMaps [Pods] [Deployments; StatefulSets; CronJobs]
            eq_refl eq_refl _ eq_refl).
  intros r' [<-|[]]. reflexivity.
Defined.

Lemma Run_nothing_in_scope_witness :
  Run (initialised (Some "nodes, pods") "foo" "")
  = Returned None (initialised (Some "nodes, pods") "foo" "").
Proof.
  refine (proj2 (Run_nothing_in_scope
                   (initialised (Some "nodes, pods") "foo" "") _) eq_refl).
  intros r. destruct r; reflexivity.
Defined.

Lemma Run_error_from_provider_witness :
  exists cs r e before after,
    order = (before ++ r :: after)%list
    /\ clientset (app (initialised (Some "deployments") "foo" "")) = Some cs
    /\ ListResource cs r "" = inr e.
Proof.
  destruct (Run_error_from_provider
              (initialised (Some "deployments") "foo" "")
              (stateOf (Run (initialised (Some "deployments") "foo" "")))
              (Wrap (errorString "forbidden") "error in Deployments")
              eq_refl)
    as (cs & r & e & before & after & Horder & Hcs & _ & _ & Hl & _).
  exists cs, r, e, before, after. repeat split; assumption.
Defined.


Lemma report_context_witness :
  report p1 (8, 11) (scenario "foo" "")
  = Returned tt (logged (scenario "foo" "")
                        [Log LevelInfo p1Attrs ("R " ++ "foo" ++ "")]).
Proof.
  refine (proj1 (report_context (scenario "foo" "") p1 8 11 _ _ _ _ _));
    vm_compute; discriminate.
Defined.

Lemma search_output_witness :
  search (scenario "foo" "")
  = Returned tt (logged (scenario "foo" "")
                        [Log LevelInfo p1Attrs "foo B";
                         Log LevelInfo p1Attrs "R foo"]).
Proof.
  refine (search_output (scenario "foo" "") foo eq_refl _ _).
  - vm_compute. discriminate.
  - intros obj [<-|[]] _. split; vm_compute; [reflexivity|discriminate].
Defined.

Lemma search_without_expression_panics_witness :
  let c1 := toObject ConfigMaps {| ItemName := "c1"; ItemNamespace := "ns1";
                                   ItemString := "key: foo" |} in
  let st := {| app := {| clientset := None;
                         Kubeconfig := "/home/user/.kube/config";
                         WhereToSearch := "pods,configmaps";
                         WhatToSearch := "foo";
                         whatToSearchRe := None;
                         Namespace := "";
                         KubernetesObjects := [p1; c1];
                         ShowTails := 10;
                         Except := "^ns1/p1$";
                         exceptRe := Some {| Literal.atStart := true;
                                             Literal.body := "ns1/p1";
                                             Literal.atEnd := true |} |};
               trace := [] |} in
  search st = Panicked (logged st [Log LevelDebug p1Attrs "ignored"]).
Proof.
  intros c1 st.
  refine (search_without_expression_panics st c1 [p1] [] eq_refl eq_refl _
                                           eq_refl).
  intros o [<-|[]]. reflexivity.
Defined.

Lemma demoCluster_windowsFit (r : Resource) (namespace : string)
      (items : list Item) (item : Item) :
  demoCluster r namespace = inl items ->
  In item items ->
  len (ToLower (ItemString item)) = len (ItemString item)
  /\ len (ItemString item) + 10 <= GoInt.maxInt.
Proof.
  destruct r; simpl; intros Hl Hi; try discriminate;
    injection Hl as <-; simpl in Hi;
    repeat (destruct Hi as [<-|Hi]); try contradiction;
    split; vm_compute; (reflexivity || discriminate).
Defined.

Lemma Run_returns_witness :
  exists res st',
    Run (initialised (Some "pods,configmaps,cronjobs") "foo" "")
    = Returned res st'.
Proof.
  assert (Hfit : forall r items item,
             ListResource demoCluster r
               (Namespace (app (initialised (Some "pods,configmaps,cronjobs")
                                            "foo" "")))
             = inl items ->
             In item items ->
             windowsFit (app (initialised (Some "pods,configmaps,cronjobs")
                                          "foo" ""))
                        (ItemString item)).
  { intros r items item Hl Hi.
    exact (demoCluster_windowsFit r _ items item Hl Hi). }
  assert (Hr : 0 <= ShowTails (app (initialised
                                      (Some "pods,configmaps,cronjobs")
                                      "foo" "")))
    by (vm_compute; discriminate).
  destruct (Run_returns
              (initialised (Some "pods,configmaps,cronjobs") "foo" "")
              demoCluster foo eq_refl eq_refl Hr
              (fun obj (Hin : In obj []) => match Hin with end) Hfit)
    as (res & st' & Hrun & _).
  exists res, st'. exact Hrun.
Defined.

Lemma main_returns_witness :
  exists res st',
    main "" (demoArgs (Some "pods,configmaps,cronjobs") "foo" "")
         {| app := NewApplication; trace := [] |}
    = Returned res st'.
Proof.
  refine (main_returns "" (demoArgs (Some "pods,configmaps,cronjobs") "foo" "")
                       {| app := NewApplication; trace := [] |} _).
  intros rc cs r items item _ Hnew Hl Hi.
  injection Hnew as <-.
  exact (demoCluster_windowsFit r _ items item Hl Hi).
Defined.

Lemma getObjects_lists_and_appends_witness :
  let st := initialised (Some "pods") "foo" "" in
  exists st',
    getObjects Pods st = Returned None st'
    /\ trace st' = [Log LevelInfo [] "Getting Pods ..."; Call Pods ""]
    /\ KubernetesObjects (app st') = [p1].
Proof.
  intros st.
  destruct (getObjects_lists_and_appends
              Pods st demoCluster
              [{| ItemName := "p1"; ItemNamespace := "ns1";
                  ItemString := "foo BAR foo" |}]
              eq_refl eq_refl eq_refl)
    as (st' & Hrun & Htrace & Hstore & _).
  exists st'. repeat split; assumption.
Defined.

Lemma search_without_exclusion_witness :
  exists evs res,
    search (scenario "foo" "") = outcomeOf res (logged (scenario "foo" "") evs)
    /\ forall attrs msg, ~ In (Log LevelDebug attrs msg) evs.
Proof.
  exact (search_without_exclusion (scenario "foo" "") eq_refl).
Defined.

Lemma Run_output_witness :
  let st := initialised (Some "pods,cronjobs") "foo" "" in
  Run st
  = Returned None
      {| app := stored [p1;
                        toObject CronJobs
                                 {| ItemName := "nightly";
                                    ItemNamespace := "ns2";
                                    ItemString := "schedule: FOO" |}]
                       (app st);
         trace := [Log LevelInfo [] "Getting Pods ..."; Call Pods "";
                   Log LevelInfo [] "Getting CronJobs ..."; Call CronJobs "";
                   Log LevelInfo p1Attrs "foo BAR foo";
                   Log LevelInfo p1Attrs "foo BAR foo";
                   Log LevelInfo
                       [("kind", "CronJobs"); ("name", "nightly");
                        ("namespace", "ns2")]
                       "schedule: FOO"] |}.
Proof.
  intros st.
  refine (Run_output st demoCluster foo eq_refl eq_refl _ _ _ _).
  - vm_compute. discriminate.
  - intros r Hin. destruct r; try discriminate Hin; eexists; reflexivity.
  - intros obj [].
  - intros r items item Hl Hi.
    exact (demoCluster_windowsFit r _ items item Hl Hi).
Defined.
